(** * ThreadRunner: a shallow embedding of [thread_runner.py]

    The module under study runs callables on worker threads, funnels what
    each worker produced through a [queue.Queue] and hands the dequeued
    values back to the caller.  Python values, exceptions, coroutines, the
    logger, the clock and the thread scheduler are modelled below; the three
    class methods keep their source names. *)

From Stdlib Require Import List ZArith String Bool Arith Lia Permutation.
Import ListNotations.

Open Scope string_scope.
Open Scope list_scope.

Set Warnings "-register-all".

(** ** Python values *)

Module Py.

(** The part of the built-in exception hierarchy the code can tell apart:
    [except Exception] and [isinstance(_, Exception)] accept the subclasses
    of [Exception] and reject the classes that derive from [BaseException]
    directly. *)
Inductive exc_class : Type :=
| BaseException
| Exception
| ZeroDivisionError
| ValueError
| TypeError
| RuntimeError
| KeyboardInterrupt
| SystemExit
| CancelledError.

Definition issubclass_Exception (c : exc_class) : bool :=
  match c with
  | BaseException | KeyboardInterrupt | SystemExit | CancelledError => false
  | Exception | ZeroDivisionError | ValueError | TypeError | RuntimeError => true
  end.

(** An exception object: its class and the text [str(e)] renders. *)
Record exn : Type := mk_exn { exn_class : exc_class; exn_text : string }.

Inductive value : Type :=
| VNone
| VBool (b : bool)
| VInt (z : Z)
| VStr (s : string)
| VList (l : list value)
| VExn (e : exn).

(** [isinstance(v, Exception)], returning the exception object when the test
    succeeds so that [raise v] has something to raise. *)
Definition isinstance_Exception (v : value) : option exn :=
  match v with
  | VExn e => if issubclass_Exception (exn_class e) then Some e else None
  | _ => None
  end.

Definition str (e : exn) : string := exn_text e.

(** How a call ends: it returns, it raises, or it never comes back. *)
Inductive completion (A : Type) : Type :=
| Return (a : A)
| Raise (e : exn)
| Hang.

Arguments Return {A} a.
Arguments Raise {A} e.
Arguments Hang {A}.

(** A coroutine object: what driving it one step further gives. *)
Inductive coroutine : Type :=
| CoReturn (v : value)
| CoRaise (e : exn)
| CoAwait (k : coroutine)
| CoForever.

(** [loop.run_until_complete(coro)] on a fresh event loop. *)
Fixpoint run_until_complete (future : coroutine) : completion value :=
  match future with
  | CoReturn v => Return v
  | CoRaise e => Raise e
  | CoAwait k => run_until_complete k
  | CoForever => Hang
  end.

Definition arguments : Type := list value.
Definition keywords : Type := list (string * value).

(** A callable is a plain function ([def], [lambda]) or a coroutine function
    ([async def]); calling the latter only builds the coroutine object. *)
Inductive callable : Type :=
| Direct (body : arguments -> keywords -> completion value)
| Suspendable (body : arguments -> keywords -> completion coroutine).

Definition iscoroutinefunction (func : callable) : bool :=
  match func with
  | Direct _ => false
  | Suspendable _ => true
  end.

End Py.

Import Py.

(** ** The logger *)

Inductive level : Type := INFO | ERROR.

(** A message is a literal (possibly with [str(e)] spliced in) or a literal
    around the elapsed time [(end - start).total_seconds()], kept here as the
    timedelta in microseconds. *)
Inductive message : Type :=
| Text (s : string)
| Elapsed (before : string) (microseconds : Z) (after : string).

Record log_entry : Type := mk_log { log_level : level; log_message : message }.

Definition is_error (l : log_entry) : bool :=
  match log_level l with ERROR => true | INFO => false end.

(** ** Worker threads as traces of atomic actions

    A worker touches two shared objects only: the class-level logger and the
    result queue it was handed.  Its run is therefore a sequence of atomic
    actions followed by the way the thread's target ends. *)

Inductive action : Type :=
| Log (l : log_entry)
| Put (v : value).

Definition program (A : Type) : Type := (list action * completion A)%type.

Module Worker.

Definition ret {A} (a : A) : program A := ([], Return a).

Definition bind {A B} (m : program A) (k : A -> program B) : program B :=
  match m with
  | (tr, Return a) => let (tr', r) := k a in (tr ++ tr', r)
  | (tr, Raise e) => (tr, Raise e)
  | (tr, Hang) => (tr, Hang)
  end.

Definition lift {A} (c : completion A) : program A := ([], c).

Definition put (item : value) : program unit := ([Put item], Return tt).

Definition logger_error (m : message) : program unit :=
  ([Log (mk_log ERROR m)], Return tt).

(** [try: body  except Exception as e: handler e] *)
Definition try_except_Exception {A} (body : program A) (handler : exn -> program A)
  : program A :=
  match body with
  | (tr, Raise e) =>
      if issubclass_Exception (exn_class e)
      then let (tr', r) := handler e in (tr ++ tr', r)
      else (tr, Raise e)
  | other => other
  end.

End Worker.

Declare Scope worker_scope.
Delimit Scope worker_scope with worker.
Notation "x <~ m ; k" := (Worker.bind m (fun x => k))
  (at level 61, m at next level, right associativity) : worker_scope.
Notation "m ;~ k" := (Worker.bind m (fun _ => k))
  (at level 61, right associativity) : worker_scope.

(** The two branches of the mode test [asyncio.iscoroutinefunction(function)],
    here the match on the constructor: a coroutine function is called and its
    coroutine driven on a new event loop, a plain function is called. *)
Definition invoke (function : callable) (args : arguments) (kwargs : keywords)
  : completion value :=
  match function with
  | Suspendable body =>
      match body args kwargs with
      | Return coro => run_until_complete coro
      | Raise e => Raise e
      | Hang => Hang
      end
  | Direct body => body args kwargs
  end.

Definition _run_function_in_thread
  (function : callable) (args : arguments) (kwargs : keywords) : program unit :=
  Worker.try_except_Exception
    (result <~ Worker.lift (invoke function args kwargs) ;
     Worker.put result)%worker
    (fun e =>
       (Worker.logger_error
          (Text ("Caught an exception while attempting to run function in thread: "
                 ++ str e)%string) ;~
        Worker.put (VExn e))%worker).

(** ** Threads and the scheduler

    A started thread is the part of its worker's trace that has not run yet,
    together with the way its target ends.  The configuration the workers
    share is the result queue of the current call and the logger. *)

Definition thread : Type := program unit.

(** The parameters [_run_function_in_thread] binds before [*args] and
    [**kwargs].  Which of these names can be in the [kwargs] a thread is
    given depends on the method that created it: [result_queue] through
    both, [function] through [run_functions] only, [cls] through neither,
    since each method binds its own parameters first (see [ThreadRunner]
    below). *)
Definition worker_parameters : list string := ["cls"; "function"; "result_queue"].

Definition clashes (kwargs : keywords) : bool :=
  existsb (fun kv => existsb (String.eqb (fst kv)) worker_parameters) kwargs.

(** [Thread(target=cls._run_function_in_thread,
            args=(function, result_queue, *args), kwargs=kwargs)].
    Once started the thread calls its target on these.  A keyword that
    names a parameter the positional arguments have bound already makes that
    call raise [TypeError] before the body of the worker, and so its [try],
    is entered: the thread ends at once. *)
Definition Thread (function : callable) (args : arguments) (kwargs : keywords)
  : thread :=
  if clashes kwargs
  then ([], Raise (mk_exn TypeError
                     "_run_function_in_thread() got multiple values for argument"))
  else _run_function_in_thread function args kwargs.

Record config : Type := mk_config {
  threads : list thread;
  queue : list value;
  logged : list log_entry
}.

Definition perform (a : action) (ts : list thread) (c : config) : config :=
  match a with
  | Log l => mk_config ts (queue c) (logged c ++ [l])
  | Put v => mk_config ts (queue c ++ [v]) (logged c)
  end.

(** One step of the pool: some thread with an action left performs it. *)
Inductive step : config -> config -> Prop :=
| step_thread c pre a tr fin post :
    threads c = pre ++ (a :: tr, fin) :: post ->
    step c (perform a (pre ++ (tr, fin) :: post) c).

Inductive steps : config -> config -> Prop :=
| steps_refl c : steps c c
| steps_step c1 c2 c3 : step c1 c2 -> steps c2 c3 -> steps c1 c3.

Definition runnable (t : thread) : bool :=
  match fst t with
  | [] => false
  | _ :: _ => true
  end.

Definition quiescent (c : config) : Prop :=
  Forall (fun t => fst t = []) (threads c).

(** A thread that hangs is never joined; one that returned or let an
    exception escape has terminated. *)
Definition hangs (t : thread) : bool :=
  match snd t with
  | Hang => true
  | _ => false
  end.

(** The [k]-th runnable thread performs its next action. *)
Fixpoint pick (k : nat) (ts : list thread) : option (action * list thread) :=
  match ts with
  | [] => None
  | t :: rest =>
      match fst t, k with
      | a :: tr, O => Some (a, (tr, snd t) :: rest)
      | a :: tr, S k' =>
          match pick k' rest with
          | Some (b, rest') => Some (b, t :: rest')
          | None => None
          end
      | [], _ =>
          match pick k rest with
          | Some (b, rest') => Some (b, t :: rest')
          | None => None
          end
      end
  end.

Definition pending (ts : list thread) : nat :=
  list_sum (map (fun t => List.length (fst t)) ts).

(** What the threads of a pool have yet to enqueue, and yet to log. *)
Definition puts_of (tr : list action) : list value :=
  flat_map (fun a => match a with Put v => [v] | Log _ => [] end) tr.

Definition logs_of (tr : list action) : list log_entry :=
  flat_map (fun a => match a with Log l => [l] | Put _ => [] end) tr.

Definition owed (ts : list thread) : list value :=
  flat_map (fun t => puts_of (fst t)) ts.

Definition unlogged (ts : list thread) : list log_entry :=
  flat_map (fun t => logs_of (fst t)) ts.

Definition runnable_count (ts : list thread) : nat :=
  count_occ Bool.bool_dec (map runnable ts) true.

(** The scheduler, driven by an oracle: each number chooses among the
    threads that can run. *)
Fixpoint schedule (fuel : nat) (sched : list nat) (c : config) : config :=
  match fuel with
  | O => c
  | S fuel' =>
      match runnable_count (threads c) with
      | O => c
      | S n =>
          match pick (hd O sched mod S n) (threads c) with
          | Some (a, ts') => schedule fuel' (tl sched) (perform a ts' c)
          | None => c
          end
      end
  end.

(** ** The calling thread *)

Record world : Type := mk_world {
  logger : list log_entry;
  clock : list Z;
  scheduler : list nat
}.

Definition M (A : Type) : Type := world -> completion A * world.

Module Main.

Definition ret {A} (a : A) : M A := fun w => (Return a, w).

Definition raise {A} (e : exn) : M A := fun w => (Raise e, w).

Definition bind {A B} (m : M A) (k : A -> M B) : M B :=
  fun w =>
    match m w with
    | (Return a, w') => k a w'
    | (Raise e, w') => (Raise e, w')
    | (Hang, w') => (Hang, w')
    end.

(** [try: body  except Exception as e: handler e] *)
Definition try_except_Exception {A} (body : M A) (handler : exn -> M A) : M A :=
  fun w =>
    match body w with
    | (Raise e, w') =>
        if issubclass_Exception (exn_class e) then handler e w' else (Raise e, w')
    | other => other
    end.

(** [datetime.now()], in microseconds, read from the clock oracle. *)
Definition datetime_now : M Z :=
  fun w => (Return (hd 0%Z (clock w)),
            mk_world (logger w) (tl (clock w)) (scheduler w)).

Definition log (lv : level) (m : message) : M unit :=
  fun w => (Return tt,
            mk_world (logger w ++ [mk_log lv m]) (clock w) (scheduler w)).

Definition logger_info : message -> M unit := log INFO.
Definition logger_error : message -> M unit := log ERROR.

(** [Queue()] *)
Definition Queue : list value := [].

(** [thread.start()] for each thread, then [thread.join()] for each: the
    workers run to the end under the scheduler, and the caller resumes with
    the queue they filled unless one of them never terminates. *)
Definition start_join (ts : list thread) (result_queue : list value)
  : M (list value) :=
  fun w =>
    let c := schedule (pending ts) (scheduler w)
               (mk_config ts result_queue (logger w)) in
    let w' := mk_world (logged c) (clock w) (skipn (pending ts) (scheduler w)) in
    if existsb hangs ts then (Hang, w') else (Return (queue c), w').

(** [result_queue.get()]: with every producer gone, an empty queue blocks
    the caller for good. *)
Definition get (result_queue : list value) : M (value * list value) :=
  fun w =>
    match result_queue with
    | [] => (Hang, w)
    | item :: rest => (Return (item, rest), w)
    end.

End Main.

Declare Scope main_scope.
Delimit Scope main_scope with main.
Notation "x <- m ; k" := (Main.bind m (fun x => k))
  (at level 61, m at next level, right associativity) : main_scope.
Notation "m ;; k" := (Main.bind m (fun _ => k))
  (at level 61, right associativity) : main_scope.

Open Scope main_scope.

Definition run_function
  (function : callable) (args : arguments) (kwargs : keywords) : M value :=
  Main.try_except_Exception
    (start <- Main.datetime_now ;
     Main.logger_info (Text "Starting function execution in a new thread.") ;;
     let result_queue := Main.Queue in
     let thread := Thread function args kwargs in
     result_queue <- Main.start_join [thread] result_queue ;
     got <- Main.get result_queue ;
     let result := fst got in
     match isinstance_Exception result with
     | Some e => Main.raise e
     | None =>
         end_ <- Main.datetime_now ;
         Main.logger_info
           (Elapsed "Finished function execution in thread (" (end_ - start) "s).") ;;
         Main.ret result
     end)
    (fun e =>
       Main.logger_error
         (Text ("Caught an exception while attempting to run the function in a new thread: "
                ++ str e)%string) ;;
       Main.ret VNone).

(** The collecting loop: [while not result_queue.empty()] dequeues, raises
    the item if it is an [Exception], appends it to [results] otherwise. *)
Fixpoint drain (result_queue : list value) (results : list value)
  : M (list value) :=
  match result_queue with
  | [] => Main.ret results
  | result :: rest =>
      match isinstance_Exception result with
      | Some e => Main.raise e
      | None => drain rest (results ++ [result])
      end
  end.

(** The threads the first loop creates and starts, one per function. *)
Definition spawn (functions : list callable) (args : arguments) (kwargs : keywords)
  : list thread :=
  map (fun function => Thread function args kwargs) functions.

Definition run_functions
  (functions : list callable) (args : arguments) (kwargs : keywords) : M value :=
  Main.try_except_Exception
    (start <- Main.datetime_now ;
     Main.logger_info (Text "Starting multiple function executions in threads.") ;;
     let result_queue := Main.Queue in
     let results := [] in
     let threads := spawn functions args kwargs in
     result_queue <- Main.start_join threads result_queue ;
     results <- drain result_queue results ;
     end_ <- Main.datetime_now ;
     Main.logger_info
       (Elapsed "Finished multiple function executions in threads ("
                (end_ - start) "s).") ;;
     Main.ret (VList results))
    (fun e =>
       Main.logger_error
         (Text ("Caught an exception while attempting to run the functions in new threads: "
                ++ str e)%string) ;;
       Main.ret VNone).

(** ** The methods as their callers reach them

    [run_function] and [run_functions] above are the bodies of the two
    methods, run on the [kwargs] dictionary Python hands them.  Python binds
    the parameters of a method first: a keyword named after one of them is a
    second value for it, and the call raises [TypeError] in the caller,
    before the body and its [try] are entered.  Such a keyword is therefore
    never in the [kwargs] of the body. *)

Definition names (parameters : list string) (kwargs : keywords) : bool :=
  existsb (fun kv => existsb (String.eqb (fst kv)) parameters) kwargs.

Definition multiple_values (method : string) : exn :=
  mk_exn TypeError (method ++ "() got multiple values for argument")%string.

Module ThreadRunner.

(** [ThreadRunner.run_function(function, *args, **kw)]: the parameters are
    [cls] and [function]. *)
Definition run_function
  (function : callable) (args : arguments) (kw : keywords) : M value :=
  if names ["cls"; "function"] kw
  then Main.raise (multiple_values "run_function")
  else run_function function args kw.

(** [ThreadRunner.run_functions(functions, *args, **kw)]: the parameters are
    [cls] and [functions]. *)
Definition run_functions
  (functions : list callable) (args : arguments) (kw : keywords) : M value :=
  if names ["cls"; "functions"] kw
  then Main.raise (multiple_values "run_functions")
  else run_functions functions args kw.

End ThreadRunner.

(** ** Vocabulary of the statements *)

(** What a run of the pool has moved from the threads to the shared
    objects. *)
Record grows (c c' : config) (dq : list value) (dl : list log_entry) : Prop := {
  grows_queue : queue c' = queue c ++ dq;
  grows_logged : logged c' = logged c ++ dl;
  grows_owed : Permutation (dq ++ owed (threads c')) (owed (threads c));
  grows_unlogged : Permutation (dl ++ unlogged (threads c')) (unlogged (threads c));
  grows_endings : map snd (threads c') = map snd (threads c)
}.

(** The log entries of the three methods. *)
Definition worker_caught (e : exn) : log_entry :=
  mk_log ERROR
    (Text ("Caught an exception while attempting to run function in thread: "
           ++ str e)%string).

Definition run_function_started : log_entry :=
  mk_log INFO (Text "Starting function execution in a new thread.").

Definition run_function_finished (elapsed : Z) : log_entry :=
  mk_log INFO (Elapsed "Finished function execution in thread (" elapsed "s).").

Definition run_function_caught (e : exn) : log_entry :=
  mk_log ERROR
    (Text ("Caught an exception while attempting to run the function in a new thread: "
           ++ str e)%string).

Definition run_functions_started : log_entry :=
  mk_log INFO (Text "Starting multiple function executions in threads.").

Definition run_functions_finished (elapsed : Z) : log_entry :=
  mk_log INFO
    (Elapsed "Finished multiple function executions in threads (" elapsed "s).").

Definition run_functions_caught (e : exn) : log_entry :=
  mk_log ERROR
    (Text ("Caught an exception while attempting to run the functions in new threads: "
           ++ str e)%string).

(** A call settles when it returns or raises something [except Exception]
    catches. *)
Definition settles (c : completion value) : bool :=
  match c with
  | Return _ => true
  | Raise e => issubclass_Exception (exn_class e)
  | Hang => false
  end.

(** The item a call leaves in the queue through the worker. *)
Definition outcome (c : completion value) : list value :=
  match c with
  | Return v => [v]
  | Raise e => if issubclass_Exception (exn_class e) then [VExn e] else []
  | Hang => []
  end.

Definition is_Hang {A} (c : completion A) : bool :=
  match c with
  | Hang => true
  | _ => false
  end.

Definition is_Raise {A} (c : completion A) : bool :=
  match c with
  | Raise _ => true
  | _ => false
  end.

(** The first [Exception] of a queue, in the order the loop dequeues. *)
Fixpoint first_failure (result_queue : list value) : option exn :=
  match result_queue with
  | [] => None
  | result :: rest =>
      match isinstance_Exception result with
      | Some e => Some e
      | None => first_failure rest
      end
  end.

(** What the threads of a batch enqueue and log, in submission order, and
    whether one of them never terminates. *)
Definition outcomes (args : arguments) (kwargs : keywords)
  (functions : list callable) : list value :=
  flat_map (fun function => puts_of (fst (Thread function args kwargs))) functions.

Definition worker_errors (args : arguments) (kwargs : keywords)
  (functions : list callable) : list log_entry :=
  flat_map (fun function => logs_of (fst (Thread function args kwargs))) functions.

Definition some_hangs (args : arguments) (kwargs : keywords)
  (functions : list callable) : bool :=
  existsb (fun function => hangs (Thread function args kwargs)) functions.

(** The error entries a call added to the log. *)
Definition errors_logged (before after : world) : list log_entry :=
  filter is_error (skipn (List.length (logger before)) (logger after)).

(** What a worker is said to do: end normally after enqueueing exactly the
    given item. *)
Definition one_outcome (p : program unit) (item : value) : Prop :=
  snd p = Return tt /\ puts_of (fst p) = [item].

(** ** Sample callables and worlds *)

Module Samples.

Definition ZeroDivision : exn := mk_exn ZeroDivisionError "division by zero".

(** [lambda: 42] *)
Definition const (v : value) : callable := Direct (fun _ _ => Return v).

(** [lambda: 1/0] *)
Definition one_over_zero : callable := Direct (fun _ _ => Raise ZeroDivision).

(** [def f(): raise e] *)
Definition raising (e : exn) : callable := Direct (fun _ _ => Raise e).

(** [lambda: sys.exit()] *)
Definition sys_exit : callable := raising (mk_exn SystemExit "").

(** [def f(): raise BaseException("boom")] *)
Definition fatal : callable := raising (mk_exn BaseException "boom").

(** [lambda: ValueError("bad")]: the exception object is returned. *)
Definition returns_error : callable := const (VExn (mk_exn ValueError "bad")).

(** [async def f(): await asyncio.sleep(d); return v] *)
Definition sleep_then (v : value) : callable :=
  Suspendable (fun _ _ => Return (CoAwait (CoReturn v))).

Definition w0 : world := mk_world [] [100%Z; 250%Z] [].

(** The same, with a scheduler that prefers the last runnable thread. *)
Definition w1 : world := mk_world [] [100%Z; 250%Z] [1; 1; 1; 1; 1; 1].

(** Keywords as in [run_function(f, result_queue=0)]. *)
Definition clashing : keywords := [("result_queue", VInt 0)].

End Samples.

(** ** Vocabulary of the further properties *)

(** A call fails when what it leaves in the queue is an [Exception]: it
    raised one, or returned one. *)
Definition fails (c : completion value) : bool :=
  match c with
  | Return v => match isinstance_Exception v with Some _ => true | None => false end
  | Raise e => issubclass_Exception (exn_class e)
  | Hang => false
  end.

(** A call escapes when it raises what [except Exception] lets through. *)
Definition escapes (c : completion value) : bool :=
  match c with
  | Raise e => negb (issubclass_Exception (exn_class e))
  | _ => false
  end.

(** The entry a worker logs for a call: one for a caught [Exception]. *)
Definition worker_error (c : completion value) : list log_entry :=
  match c with
  | Raise e => if issubclass_Exception (exn_class e) then [worker_caught e] else []
  | _ => []
  end.

(** A thread that has at most one item to enqueue and nothing to log. *)
Definition single_put (t : thread) : Prop :=
  fst t = [] \/ exists v, fst t = [Put v].

(** * Properties *)

(** ** The scheduler *)

Section Scheduler.

Lemma pick_spec k ts a ts' :
  pick k ts = Some (a, ts') ->
  exists pre tr fin post,
    ts = pre ++ (a :: tr, fin) :: post /\ ts' = pre ++ (tr, fin) :: post.
Proof.
  revert k ts'.
  induction ts as [|[tr0 fin0] rest IH]; intros k ts' H; simpl in H.
  - discriminate.
  - destruct tr0 as [|a0 tr0].
    + destruct (pick k rest) as [[b rest']|] eqn:E; [|discriminate].
      injection H as <- <-.
      destruct (IH _ _ E) as (pre & tr & fin & post & -> & ->).
      exists (([], fin0) :: pre), tr, fin, post. split; reflexivity.
    + destruct k as [|k'].
      * injection H as <- <-.
        exists [], tr0, fin0, rest. split; reflexivity.
      * destruct (pick k' rest) as [[b rest']|] eqn:E; [|discriminate].
        injection H as <- <-.
        destruct (IH _ _ E) as (pre & tr & fin & post & -> & ->).
        exists ((a0 :: tr0, fin0) :: pre), tr, fin, post. split; reflexivity.
Qed.

Lemma pick_some k ts :
  k < runnable_count ts -> exists a ts', pick k ts = Some (a, ts').
Proof.
  revert k.
  induction ts as [|[tr0 fin0] rest IH]; intros k H; unfold runnable_count in *;
    simpl in *.
  - lia.
  - destruct tr0 as [|a0 tr0]; simpl in *.
    + destruct (IH k H) as (a & ts' & ->). eauto.
    + destruct k as [|k']; [eauto|].
      destruct (IH k') as (a & ts' & ->); [lia|eauto].
Qed.

Lemma runnable_count_0 ts : runnable_count ts = 0 -> Forall (fun t => fst t = []) ts.
Proof.
  unfold runnable_count.
  induction ts as [|[tr0 fin0] rest IH]; simpl; intros H.
  - constructor.
  - destruct tr0; simpl in H; [|discriminate].
    constructor; [reflexivity|auto].
Qed.

Lemma pending_app ts1 ts2 : pending (ts1 ++ ts2) = pending ts1 + pending ts2.
Proof. unfold pending. now rewrite map_app, list_sum_app. Qed.

Lemma owed_app ts1 ts2 : owed (ts1 ++ ts2) = owed ts1 ++ owed ts2.
Proof. unfold owed. apply flat_map_app. Qed.

Lemma unlogged_app ts1 ts2 : unlogged (ts1 ++ ts2) = unlogged ts1 ++ unlogged ts2.
Proof. unfold unlogged. apply flat_map_app. Qed.

Lemma quiescent_owed ts : Forall (fun t => fst t = []) ts -> owed ts = [].
Proof.
  induction 1 as [|[tr fin] rest H _ IH]; [reflexivity|].
  simpl in H. subst tr. exact IH.
Qed.

Lemma quiescent_unlogged ts : Forall (fun t => fst t = []) ts -> unlogged ts = [].
Proof.
  induction 1 as [|[tr fin] rest H _ IH]; [reflexivity|].
  simpl in H. subst tr. exact IH.
Qed.

(** One step hands one item to the queue or one entry to the log. *)
Lemma step_grows c c' : step c c' -> exists dq dl, grows c c' dq dl.
Proof.
  intros [c0 pre a tr fin post E].
  destruct a as [l|v].
  - exists [], [l]. split; simpl; rewrite ?E.
    + now rewrite app_nil_r.
    + reflexivity.
    + rewrite !owed_app. reflexivity.
    + rewrite !unlogged_app. simpl.
      apply (Permutation_middle (unlogged pre) _ l).
    + rewrite !map_app. reflexivity.
  - exists [v], []. split; simpl; rewrite ?E.
    + reflexivity.
    + now rewrite app_nil_r.
    + rewrite !owed_app. simpl.
      apply (Permutation_middle (owed pre) _ v).
    + rewrite !unlogged_app. reflexivity.
    + rewrite !map_app. reflexivity.
Qed.

Lemma steps_grows c c' : steps c c' -> exists dq dl, grows c c' dq dl.
Proof.
  induction 1 as [c|c1 c2 c3 H12 _ (dq2 & dl2 & G2)].
  - exists [], []. split; simpl; rewrite ?app_nil_r; reflexivity.
  - destruct (step_grows _ _ H12) as (dq1 & dl1 & G1).
    destruct G1 as [Q1 L1 O1 U1 E1], G2 as [Q2 L2 O2 U2 E2].
    exists (dq1 ++ dq2), (dl1 ++ dl2). split.
    + now rewrite Q2, Q1, app_assoc.
    + now rewrite L2, L1, app_assoc.
    + rewrite <- O1, <- O2, app_assoc. reflexivity.
    + rewrite <- U1, <- U2, app_assoc. reflexivity.
    + now rewrite E2.
Qed.

Lemma perform_threads a ts c : threads (perform a ts c) = ts.
Proof. destruct a; reflexivity. Qed.

(** The scheduler only takes steps of the pool ... *)
Lemma schedule_steps fuel : forall sched c, steps c (schedule fuel sched c).
Proof.
  induction fuel as [|fuel IH]; intros sched c; cbn [schedule].
  - constructor.
  - destruct (runnable_count _) as [|n]; [constructor|].
    destruct (pick _ _) as [[a ts']|] eqn:E; [|constructor].
    destruct (pick_spec _ _ _ _ E) as (pre & tr & fin & post & Hc & ->).
    eapply steps_step; [|apply IH].
    now constructor.
Qed.

(** ... and, given one unit of fuel per pending action, runs every thread
    to its end. *)
Lemma schedule_quiescent fuel : forall sched c,
  pending (threads c) <= fuel -> quiescent (schedule fuel sched c).
Proof.
  induction fuel as [|fuel IH]; intros sched c Hf; cbn [schedule].
  - apply runnable_count_0.
    destruct (runnable_count (threads c)) as [|n] eqn:E; [reflexivity|].
    destruct (pick_some 0 (threads c)) as (a & ts' & P); [lia|].
    destruct (pick_spec _ _ _ _ P) as (pre & tr & fin & post & Hc & _).
    rewrite Hc, pending_app in Hf. unfold pending in Hf at 2. simpl in Hf. lia.
  - destruct (runnable_count (threads c)) as [|n] eqn:E.
    + now apply runnable_count_0.
    + destruct (pick_some (hd 0 sched mod S n) (threads c)) as (a & ts' & P).
      { rewrite E. apply Nat.mod_upper_bound. lia. }
      rewrite P. apply IH. rewrite perform_threads.
      destruct (pick_spec _ _ _ _ P) as (pre & tr & fin & post & Hc & ->).
      rewrite Hc in Hf. rewrite pending_app in *.
      unfold pending in *. simpl in *. lia.
Qed.

(** Joining a pool: the queue has grown by a permutation of what the
    threads owed, and so has the log. *)
Lemma schedule_run ts q lg sched :
  exists dq dl,
    queue (schedule (pending ts) sched (mk_config ts q lg)) = q ++ dq
    /\ logged (schedule (pending ts) sched (mk_config ts q lg)) = lg ++ dl
    /\ Permutation dq (owed ts) /\ Permutation dl (unlogged ts).
Proof.
  pose proof (schedule_steps (pending ts) sched (mk_config ts q lg)) as S.
  pose proof (schedule_quiescent (pending ts) sched (mk_config ts q lg)
                (le_n _)) as Q.
  destruct (steps_grows _ _ S) as (dq & dl & [Hq Hl Ho Hu _]).
  unfold quiescent in Q.
  rewrite (quiescent_owed _ Q), app_nil_r in Ho.
  rewrite (quiescent_unlogged _ Q), app_nil_r in Hu.
  exists dq, dl. auto.
Qed.

(** With one thread there is nothing to choose. *)
Lemma schedule_single tr : forall fin q lg sched,
  schedule (List.length tr) sched (mk_config [(tr, fin)] q lg)
  = mk_config [([], fin)] (q ++ puts_of tr) (lg ++ logs_of tr).
Proof.
  induction tr as [|a tr IH]; intros fin q lg sched.
  - simpl. now rewrite !app_nil_r.
  - cbn [schedule List.length]. unfold runnable_count.
    cbn [threads map runnable fst count_occ].
    destruct (bool_dec true true) as [_|N]; [|now destruct N].
    rewrite Nat.mod_1_r. cbn [pick fst snd].
    destruct a as [l|v]; cbn [perform queue logged]; rewrite IH; simpl;
      now rewrite <- app_assoc.
Qed.

End Scheduler.

Lemma start_join_single tr fin q w :
  Main.start_join [(tr, fin)] q w
  = (if hangs (tr, fin) then Hang else Return (q ++ puts_of tr),
     mk_world (logger w ++ logs_of tr) (clock w)
              (skipn (List.length tr) (scheduler w))).
Proof.
  unfold Main.start_join.
  replace (pending [(tr, fin)]) with (List.length tr)
    by (unfold pending; simpl; lia).
  rewrite schedule_single. simpl. rewrite orb_false_r.
  now destruct (hangs (tr, fin)).
Qed.

(** ** The worker and its thread *)

Section WorkerFacts.

Variables (function : callable) (args : arguments) (kwargs : keywords).

Lemma worker_Return v :
  invoke function args kwargs = Return v ->
  _run_function_in_thread function args kwargs = ([Put v], Return tt).
Proof. unfold _run_function_in_thread. now intros ->. Qed.

Lemma worker_Raise_Exception e :
  invoke function args kwargs = Raise e ->
  issubclass_Exception (exn_class e) = true ->
  _run_function_in_thread function args kwargs
  = ([Log (worker_caught e); Put (VExn e)], Return tt).
Proof.
  unfold _run_function_in_thread. intros -> H. simpl. now rewrite H.
Qed.

Lemma worker_Raise_escapes e :
  invoke function args kwargs = Raise e ->
  issubclass_Exception (exn_class e) = false ->
  _run_function_in_thread function args kwargs = ([], Raise e).
Proof.
  unfold _run_function_in_thread. intros -> H. simpl. now rewrite H.
Qed.

Lemma worker_Hang :
  invoke function args kwargs = Hang ->
  _run_function_in_thread function args kwargs = ([], Hang).
Proof. unfold _run_function_in_thread. now intros ->. Qed.

Lemma worker_puts :
  puts_of (fst (_run_function_in_thread function args kwargs))
  = outcome (invoke function args kwargs).
Proof.
  unfold _run_function_in_thread.
  destruct (invoke function args kwargs) as [v|e|]; simpl; trivial.
  destruct (issubclass_Exception (exn_class e)); reflexivity.
Qed.

Lemma worker_hangs :
  hangs (_run_function_in_thread function args kwargs)
  = is_Hang (invoke function args kwargs).
Proof.
  unfold _run_function_in_thread.
  destruct (invoke function args kwargs) as [v|e|]; simpl; trivial.
  destruct (issubclass_Exception (exn_class e)); reflexivity.
Qed.

Lemma Thread_bound :
  clashes kwargs = false ->
  Thread function args kwargs = _run_function_in_thread function args kwargs.
Proof. unfold Thread. now intros ->. Qed.

Lemma Thread_clash :
  clashes kwargs = true ->
  fst (Thread function args kwargs) = []
  /\ hangs (Thread function args kwargs) = false.
Proof. unfold Thread. intros ->. split; reflexivity. Qed.

End WorkerFacts.

(** The worker's whole behaviour is a function of how the invocation ends. *)
Lemma Thread_ext f g args kwargs :
  invoke f args kwargs = invoke g args kwargs ->
  Thread f args kwargs = Thread g args kwargs.
Proof. unfold Thread, _run_function_in_thread. now intros ->. Qed.

(** ** [run_function] *)

Section RunFunction.

Variables (function : callable) (args : arguments) (kwargs : keywords).
Variable w : world.

Ltac run_one H :=
  unfold run_function, Main.try_except_Exception, Main.bind;
  cbn [Main.datetime_now Main.logger_info Main.log Main.Queue];
  rewrite H, start_join_single; simpl.

(** Keywords that clash with the worker's parameters kill the thread before
    the callable is reached; the caller waits on an empty queue. *)
Lemma run_function_clash :
  clashes kwargs = true ->
  run_function function args kwargs w
  = (Hang,
     mk_world (logger w ++ [run_function_started]) (tl (clock w)) (scheduler w)).
Proof.
  intros Hk.
  assert (E : Thread function args kwargs
              = ([], Raise (mk_exn TypeError
                   "_run_function_in_thread() got multiple values for argument")))
    by (unfold Thread; now rewrite Hk).
  run_one E. now rewrite app_nil_r.
Qed.

Hypothesis bound : clashes kwargs = false.

(** A returned value that is not an [Exception] comes back to the caller. *)
Lemma run_function_value v :
  invoke function args kwargs = Return v ->
  isinstance_Exception v = None ->
  run_function function args kwargs w
  = (Return v,
     mk_world (logger w
               ++ [run_function_started;
                   run_function_finished (hd 0 (tl (clock w)) - hd 0 (clock w))%Z])
              (tl (tl (clock w))) (skipn 1 (scheduler w))).
Proof.
  intros Hi Hv.
  pose proof (worker_Return _ _ _ _ Hi) as E.
  rewrite <- (Thread_bound _ _ _ bound) in E. run_one E.
  rewrite Hv. simpl. unfold Main.ret. now rewrite <- !app_assoc.
Qed.

(** An [Exception] in the queue, put there by a [return] or by the worker's
    handler, is raised, caught again and logged; the call returns [None]. *)
Lemma run_function_returned_Exception e :
  invoke function args kwargs = Return (VExn e) ->
  issubclass_Exception (exn_class e) = true ->
  run_function function args kwargs w
  = (Return VNone,
     mk_world (logger w ++ [run_function_started; run_function_caught e])
              (tl (clock w)) (skipn 1 (scheduler w))).
Proof.
  intros Hi He.
  pose proof (worker_Return _ _ _ _ Hi) as E.
  rewrite <- (Thread_bound _ _ _ bound) in E. run_one E.
  rewrite He. simpl. rewrite He. unfold Main.ret. now rewrite <- !app_assoc.
Qed.

Lemma run_function_raised_Exception e :
  invoke function args kwargs = Raise e ->
  issubclass_Exception (exn_class e) = true ->
  run_function function args kwargs w
  = (Return VNone,
     mk_world (logger w
               ++ [run_function_started; worker_caught e; run_function_caught e])
              (tl (clock w)) (skipn 2 (scheduler w))).
Proof.
  intros Hi He.
  pose proof (worker_Raise_Exception _ _ _ _ Hi He) as E.
  rewrite <- (Thread_bound _ _ _ bound) in E. run_one E.
  rewrite He. simpl. rewrite He. unfold Main.ret.
  now rewrite <- !app_assoc.
Qed.

(** An exception [except Exception] lets through kills the worker silently;
    the caller then waits on an empty queue. *)
Lemma run_function_escaped e :
  invoke function args kwargs = Raise e ->
  issubclass_Exception (exn_class e) = false ->
  run_function function args kwargs w
  = (Hang,
     mk_world (logger w ++ [run_function_started]) (tl (clock w)) (scheduler w)).
Proof.
  intros Hi He.
  pose proof (worker_Raise_escapes _ _ _ _ Hi He) as E.
  rewrite <- (Thread_bound _ _ _ bound) in E. run_one E.
  now rewrite app_nil_r.
Qed.

Lemma run_function_hung :
  invoke function args kwargs = Hang ->
  run_function function args kwargs w
  = (Hang,
     mk_world (logger w ++ [run_function_started]) (tl (clock w)) (scheduler w)).
Proof.
  intros Hi.
  pose proof (worker_Hang _ _ _ Hi) as E.
  rewrite <- (Thread_bound _ _ _ bound) in E. run_one E.
  now rewrite app_nil_r.
Qed.

End RunFunction.

(** ** [run_functions] *)

Lemma drain_spec result_queue : forall results w,
  drain result_queue results w
  = match first_failure result_queue with
    | Some e => (Raise e, w)
    | None => (Return (results ++ result_queue), w)
    end.
Proof.
  induction result_queue as [|result rest IH]; intros results w; simpl.
  - now rewrite app_nil_r.
  - destruct (isinstance_Exception result); [reflexivity|].
    rewrite IH. destruct (first_failure rest); [reflexivity|].
    now rewrite <- app_assoc.
Qed.

Lemma isinstance_Exception_Some v e :
  isinstance_Exception v = Some e ->
  v = VExn e /\ issubclass_Exception (exn_class e) = true.
Proof.
  destruct v; simpl; try discriminate.
  destruct (issubclass_Exception (exn_class e0)) eqn:E; [|discriminate].
  now intros [= <-].
Qed.

Lemma first_failure_Some q e :
  first_failure q = Some e ->
  In (VExn e) q /\ issubclass_Exception (exn_class e) = true.
Proof.
  induction q as [|v q IH]; simpl; [discriminate|].
  destruct (isinstance_Exception v) as [e'|] eqn:E.
  - intros [= <-]. destruct (isinstance_Exception_Some _ _ E) as [-> H]. auto.
  - intros H. destruct (IH H). auto.
Qed.

Lemma first_failure_None q :
  first_failure q = None <-> Forall (fun v => isinstance_Exception v = None) q.
Proof.
  induction q as [|v q IH]; simpl.
  - split; [constructor|reflexivity].
  - destruct (isinstance_Exception v) eqn:E.
    + split; [discriminate|]. intros H. inversion H. congruence.
    + rewrite IH. split; [now constructor|]. intros H. now inversion H.
Qed.

Lemma failure_in_queue q e :
  In (VExn e) q -> issubclass_Exception (exn_class e) = true ->
  exists e', first_failure q = Some e'.
Proof.
  intros Hin He. destruct (first_failure q) as [e'|] eqn:F; [eauto|].
  apply first_failure_None in F. rewrite Forall_forall in F.
  specialize (F _ Hin). simpl in F. rewrite He in F. discriminate.
Qed.

Section RunFunctions.

Variables (args : arguments) (kwargs : keywords).

Lemma owed_spawn functions :
  owed (spawn functions args kwargs) = outcomes args kwargs functions.
Proof. unfold owed, outcomes, spawn. now rewrite flat_map_concat_map, map_map,
  <- flat_map_concat_map. Qed.

Lemma unlogged_spawn functions :
  unlogged (spawn functions args kwargs) = worker_errors args kwargs functions.
Proof. unfold unlogged, worker_errors, spawn. now rewrite flat_map_concat_map,
  map_map, <- flat_map_concat_map. Qed.

Lemma hangs_spawn functions :
  existsb hangs (spawn functions args kwargs) = some_hangs args kwargs functions.
Proof.
  unfold some_hangs, spawn.
  induction functions as [|f fs IH]; [reflexivity|]. simpl. now rewrite IH.
Qed.

(** After the joins: the queue is a permutation of the outcomes. *)
Lemma start_join_spawn functions w :
  exists q dl,
    Main.start_join (spawn functions args kwargs) Main.Queue w
    = (if some_hangs args kwargs functions then Hang else Return q,
       mk_world (logger w ++ dl) (clock w)
                (skipn (pending (spawn functions args kwargs)) (scheduler w)))
    /\ Permutation q (outcomes args kwargs functions)
    /\ Permutation dl (worker_errors args kwargs functions).
Proof.
  unfold Main.start_join.
  destruct (schedule_run (spawn functions args kwargs) Main.Queue (logger w)
              (scheduler w)) as (dq & dl & Eq & El & Pq & Pl).
  rewrite Eq, El, hangs_spawn.
  rewrite owed_spawn in Pq. rewrite unlogged_spawn in Pl.
  exists dq, dl. split; [|split; assumption].
  now destruct (some_hangs args kwargs functions).
Qed.

(** Every run of [run_functions], whatever the scheduler does. *)
Lemma run_functions_spec functions w :
  exists q dl,
    Permutation q (outcomes args kwargs functions)
    /\ Permutation dl (worker_errors args kwargs functions)
    /\ run_functions functions args kwargs w
       = let sched := skipn (pending (spawn functions args kwargs)) (scheduler w) in
         if some_hangs args kwargs functions
         then (Hang,
               mk_world (logger w ++ run_functions_started :: dl)
                        (tl (clock w)) sched)
         else match first_failure q with
              | Some e =>
                  (Return VNone,
                   mk_world (logger w ++ run_functions_started :: dl
                             ++ [run_functions_caught e])
                            (tl (clock w)) sched)
              | None =>
                  (Return (VList q),
                   mk_world (logger w ++ run_functions_started :: dl
                             ++ [run_functions_finished
                                   (hd 0 (tl (clock w)) - hd 0 (clock w))%Z])
                            (tl (tl (clock w))) sched)
              end.
Proof.
  destruct (start_join_spawn functions
              (mk_world (logger w ++ [run_functions_started]) (tl (clock w))
                        (scheduler w))) as (q & dl & E & Pq & Pl).
  exists q, dl. split; [assumption|]. split; [assumption|].
  unfold run_functions, Main.try_except_Exception, Main.bind.
  cbn [Main.datetime_now Main.logger_info Main.log].
  cbn [logger clock scheduler] in *.
  fold run_functions_started. rewrite E.
  destruct (some_hangs args kwargs functions).
  - cbn. now rewrite <- app_assoc.
  - rewrite drain_spec.
    destruct (first_failure q) as [e|] eqn:F.
    + destruct (first_failure_Some _ _ F) as [_ ->].
      cbn. unfold Main.ret. now rewrite <- !app_assoc.
    + cbn. unfold Main.ret. now rewrite <- !app_assoc.
Qed.

Lemma outcomes_app fs gs :
  outcomes args kwargs (fs ++ gs)
  = outcomes args kwargs fs ++ outcomes args kwargs gs.
Proof. unfold outcomes. apply flat_map_app. Qed.

Lemma some_hangs_app fs gs :
  some_hangs args kwargs (fs ++ gs)
  = some_hangs args kwargs fs || some_hangs args kwargs gs.
Proof. unfold some_hangs. apply existsb_app. Qed.

Lemma spawn_ext fs gs :
  Forall2 (fun f g => invoke f args kwargs = invoke g args kwargs) fs gs ->
  spawn fs args kwargs = spawn gs args kwargs.
Proof.
  induction 1 as [|f g fs gs H _ IH]; [reflexivity|].
  unfold spawn in *. simpl. now rewrite (Thread_ext _ _ _ _ H), IH.
Qed.

Lemma outcomes_clash functions :
  clashes kwargs = true -> outcomes args kwargs functions = [].
Proof.
  intros Hk. unfold outcomes.
  induction functions as [|f fs IH]; [reflexivity|]. simpl.
  now rewrite (proj1 (Thread_clash f _ _ Hk)), IH.
Qed.

Hypothesis bound : clashes kwargs = false.

Lemma outcomes_returned functions vs :
  Forall2 (fun f v => invoke f args kwargs = Return v) functions vs ->
  outcomes args kwargs functions = vs
  /\ some_hangs args kwargs functions = false.
Proof.
  induction 1 as [|f v fs vs H _ [IH1 IH2]]; [split; reflexivity|].
  unfold outcomes, some_hangs in *. simpl.
  rewrite (Thread_bound _ _ _ bound), worker_puts, worker_hangs, H, IH1, IH2.
  split; reflexivity.
Qed.

Lemma outcomes_settled functions :
  Forall (fun f => settles (invoke f args kwargs) = true) functions ->
  List.length (outcomes args kwargs functions) = List.length functions
  /\ some_hangs args kwargs functions = false.
Proof.
  induction 1 as [|f fs H _ [IH1 IH2]]; [split; reflexivity|].
  unfold outcomes, some_hangs in *. simpl.
  rewrite (Thread_bound _ _ _ bound), worker_puts, worker_hangs.
  rewrite length_app, IH1, IH2.
  destruct (invoke f args kwargs) as [v|e|]; simpl in *.
  - split; reflexivity.
  - rewrite H. split; reflexivity.
  - discriminate.
Qed.

End RunFunctions.

(** ** Facts shared by the claims *)

Lemma Forall2_refl_at {A} (R : A -> A -> Prop) pre x y post :
  (forall a, R a a) -> R x y -> Forall2 R (pre ++ x :: post) (pre ++ y :: post).
Proof.
  intros Hr Hxy. apply Forall2_app; [|constructor; [assumption|]].
  - induction pre; constructor; auto.
  - induction post; constructor; auto.
Qed.

Lemma skipn_length_app {A} (l l' : list A) : skipn (List.length l) (l ++ l') = l'.
Proof. induction l; simpl; auto. Qed.



(** ** Further facts about the two methods *)

Section Bound.

Variables (args : arguments) (kwargs : keywords).
Hypothesis bound : clashes kwargs = false.

Lemma outcomes_bound functions :
  outcomes args kwargs functions
  = flat_map (fun f => outcome (invoke f args kwargs)) functions.
Proof.
  unfold outcomes. induction functions as [|f fs IH]; [reflexivity|]. simpl.
  now rewrite (Thread_bound _ _ _ bound), worker_puts, IH.
Qed.

Lemma some_hangs_bound functions :
  some_hangs args kwargs functions
  = existsb (fun f => is_Hang (invoke f args kwargs)) functions.
Proof.
  unfold some_hangs. induction functions as [|f fs IH]; [reflexivity|]. simpl.
  now rewrite (Thread_bound _ _ _ bound), worker_hangs, IH.
Qed.

Lemma worker_errors_bound functions :
  worker_errors args kwargs functions
  = flat_map (fun f => worker_error (invoke f args kwargs)) functions.
Proof.
  unfold worker_errors. induction functions as [|f fs IH]; [reflexivity|]. simpl.
  rewrite (Thread_bound _ _ _ bound), IH. f_equal.
  unfold _run_function_in_thread.
  destruct (invoke f args kwargs) as [v|e|]; simpl; trivial.
  destruct (issubclass_Exception (exn_class e)); reflexivity.
Qed.

Lemma fails_outcome f :
  fails (invoke f args kwargs) = true ->
  exists e, outcome (invoke f args kwargs) = [VExn e]
            /\ issubclass_Exception (exn_class e) = true.
Proof.
  unfold fails, outcome.
  destruct (invoke f args kwargs) as [v|e'|]; try discriminate.
  - destruct (isinstance_Exception v) as [e0|] eqn:E; [|discriminate].
    destruct (isinstance_Exception_Some _ _ E) as [-> H]. eauto.
  - intros H. rewrite H. eauto.
Qed.

End Bound.

Lemma worker_errors_clash args kwargs functions :
  clashes kwargs = true -> worker_errors args kwargs functions = [].
Proof.
  intros Hk. unfold worker_errors.
  induction functions as [|f fs IH]; [reflexivity|]. simpl.
  now rewrite (proj1 (Thread_clash f _ _ Hk)), IH.
Qed.

Lemma some_hangs_clash args kwargs functions :
  clashes kwargs = true -> some_hangs args kwargs functions = false.
Proof.
  intros Hk. unfold some_hangs.
  induction functions as [|f fs IH]; [reflexivity|]. simpl.
  now rewrite (proj2 (Thread_clash f _ _ Hk)), IH.
Qed.

(** [run_functions] in terms of the queue the scheduler leaves. *)
Lemma run_functions_queue functions args kwargs w :
  fst (run_functions functions args kwargs w)
  = let q := queue (schedule (pending (spawn functions args kwargs))
                             (scheduler w)
                             (mk_config (spawn functions args kwargs) []
                                        (logger w ++ [run_functions_started]))) in
    if some_hangs args kwargs functions then Hang
    else match first_failure q with
         | Some _ => Return VNone
         | None => Return (VList q)
         end.
Proof.
  unfold run_functions, Main.try_except_Exception, Main.bind.
  cbn [Main.datetime_now Main.logger_info Main.log].
  fold run_functions_started.
  unfold Main.start_join, Main.Queue. cbn [logger clock scheduler].
  rewrite hangs_spawn.
  destruct (some_hangs args kwargs functions); [reflexivity|].
  rewrite drain_spec. cbv zeta.
  destruct (first_failure _) as [e|] eqn:F.
  - destruct (first_failure_Some _ _ F) as [_ ->]. reflexivity.
  - reflexivity.
Qed.

Lemma run_function_cases function args kwargs w :
  fst (run_function function args kwargs w)
  = if clashes kwargs then Hang
    else match invoke function args kwargs with
         | Return v =>
             match isinstance_Exception v with
             | Some _ => Return VNone
             | None => Return v
             end
         | Raise e =>
             if issubclass_Exception (exn_class e) then Return VNone else Hang
         | Hang => Hang
         end.
Proof.
  destruct (clashes kwargs) eqn:Hk.
  { now rewrite (run_function_clash _ _ _ _ Hk). }
  destruct (invoke function args kwargs) as [v|e|] eqn:Hi.
  - destruct (isinstance_Exception v) as [e|] eqn:Hv.
    + destruct (isinstance_Exception_Some _ _ Hv) as [-> He].
      now rewrite (run_function_returned_Exception _ _ _ _ Hk _ Hi He).
    + now rewrite (run_function_value _ _ _ _ Hk _ Hi Hv).
  - destruct (issubclass_Exception (exn_class e)) eqn:He.
    + now rewrite (run_function_raised_Exception _ _ _ _ Hk _ Hi He).
    + now rewrite (run_function_escaped _ _ _ _ Hk _ Hi He).
  - now rewrite (run_function_hung _ _ _ _ Hk Hi).
Qed.

Lemma worker_errors_are_errors args kwargs functions l :
  In l (worker_errors args kwargs functions) -> is_error l = true.
Proof.
  unfold worker_errors. rewrite in_flat_map. intros (f & _ & H).
  unfold Thread, _run_function_in_thread in H.
  destruct (clashes kwargs); [simpl in H; tauto|].
  destruct (invoke f args kwargs) as [v|e|]; simpl in H; try tauto.
  destruct (issubclass_Exception (exn_class e)); simpl in H; [|tauto].
  destruct H as [<-|[]]. reflexivity.
Qed.

Lemma filter_all {A} (p : A -> bool) l :
  (forall x, In x l -> p x = true) -> filter p l = l.
Proof.
  induction l as [|a l IH]; intros H; simpl; [reflexivity|].
  rewrite (H a (or_introl eq_refl)), IH; [reflexivity|].
  intros x Hx. apply H. now right.
Qed.

(** What a failed batch returns and logs, whatever the schedule. *)
Lemma run_functions_failure functions failing args kwargs w :
  In failing functions ->
  fails (invoke failing args kwargs) = true ->
  existsb (fun f => is_Hang (invoke f args kwargs)) functions = false ->
  clashes kwargs = false ->
  exists dl e,
    fst (run_functions functions args kwargs w) = Return VNone
    /\ errors_logged w (snd (run_functions functions args kwargs w))
       = dl ++ [run_functions_caught e]
    /\ Permutation dl
         (flat_map (fun f => worker_error (invoke f args kwargs)) functions)
    /\ In (VExn e) (flat_map (fun f => outcome (invoke f args kwargs)) functions)
    /\ issubclass_Exception (exn_class e) = true.
Proof.
  intros Hin Hf Hh Hk.
  destruct (run_functions_spec args kwargs functions w)
    as (q & dl & Pq & Pl & ->).
  cbv zeta. rewrite (some_hangs_bound _ _ Hk), Hh.
  destruct (fails_outcome args kwargs failing Hf) as (e0 & Ho & He0).
  destruct (failure_in_queue q e0) as [e F]; [|exact He0|].
  { apply (Permutation_in _ (Permutation_sym Pq)).
    rewrite (outcomes_bound _ _ Hk). apply in_flat_map.
    exists failing. split; [exact Hin|]. rewrite Ho. now left. }
  rewrite F. destruct (first_failure_Some _ _ F) as [Hq He].
  exists dl, e. repeat split.
  - unfold errors_logged. cbn [snd logger]. rewrite skipn_length_app.
    cbn [filter is_error log_level run_functions_started].
    rewrite filter_app. cbn.
    rewrite filter_all; [reflexivity|].
    intros x Hx. apply (worker_errors_are_errors args kwargs functions).
    apply (Permutation_in _ Pl Hx).
  - now rewrite <- (worker_errors_bound _ _ Hk).
  - rewrite <- (outcomes_bound _ _ Hk). apply (Permutation_in _ Pq Hq).
  - exact He.
Qed.

(** *** Keywords and the parameters of the methods *)

Lemma names_app p1 p2 kwargs :
  names (p1 ++ p2) kwargs = names p1 kwargs || names p2 kwargs.
Proof.
  unfold names. induction kwargs as [|kv kwargs IH]; [reflexivity|].
  simpl. rewrite existsb_app, IH.
  destruct (existsb (String.eqb (fst kv)) p1),
           (existsb (String.eqb (fst kv)) p2),
           (existsb (fun kv => existsb (String.eqb (fst kv)) p1) kwargs),
           (existsb (fun kv => existsb (String.eqb (fst kv)) p2) kwargs);
    reflexivity.
Qed.

Lemma clashes_names kwargs :
  clashes kwargs
  = names ["cls"] kwargs || names ["function"] kwargs
    || names ["result_queue"] kwargs.
Proof.
  change (clashes kwargs)
    with (names (["cls"] ++ ["function"] ++ ["result_queue"]) kwargs).
  now rewrite !names_app, orb_assoc.
Qed.

(** Past its own binding, [run_function] cannot be given [cls] or
    [function]: only [result_queue] is left to clash in the thread. *)
Lemma clashes_in_run_function kw :
  names ["cls"; "function"] kw = false ->
  clashes kw = names ["result_queue"] kw.
Proof.
  change ["cls"; "function"] with (["cls"] ++ ["function"]).
  rewrite names_app, clashes_names. now intros ->.
Qed.

(** Past its own binding, [run_functions] cannot be given [cls] or
    [functions]: [function] and [result_queue] are left to clash. *)
Lemma clashes_in_run_functions kw :
  names ["cls"; "functions"] kw = false ->
  clashes kw = names ["function"; "result_queue"] kw.
Proof.
  change ["cls"; "functions"] with (["cls"] ++ ["functions"]).
  change ["function"; "result_queue"] with (["function"] ++ ["result_queue"]).
  rewrite !names_app, clashes_names. intros H.
  apply orb_false_iff in H. destruct H as [-> _]. reflexivity.
Qed.

(** * The claims *)

Import Samples.

(** C1: a callable that raises makes [run_function] propagate the error to
    its caller.  The code does not: on [lambda: 1/0] the worker logs and
    enqueues the [ZeroDivisionError], [run_function] raises it inside its own
    [try], the [except Exception] clause logs it a second time, and the call
    returns [None]. *)
Theorem run_function_swallows_the_fault w :
  run_function one_over_zero [] [] w
  = (Return VNone,
     mk_world (logger w
               ++ [run_function_started;
                   worker_caught ZeroDivision;
                   run_function_caught ZeroDivision])
              (tl (clock w)) (skipn 2 (scheduler w))).
Proof. now apply run_function_raised_Exception. Qed.

(** C2: when one callable of a batch raises, [run_functions] propagates the
    first failure of the drain and returns no partial result.  The code
    returns [None] under every schedule for [[lambda: 1, lambda: 1/0]]:
    nothing is propagated. *)
Theorem run_functions_swallows_the_fault w :
  fst (run_functions [const (VInt 1); one_over_zero] [] [] w) = Return VNone
  /\ is_Raise (fst (run_functions [const (VInt 1); one_over_zero] [] [] w)) = false.
Proof.
  destruct (run_functions_spec [] [] [const (VInt 1); one_over_zero] w)
    as (q & dl & Pq & _ & E).
  rewrite E. cbv zeta.
  change (some_hangs [] [] [const (VInt 1); one_over_zero]) with false.
  cbv iota.
  destruct (failure_in_queue q ZeroDivision) as [e' ->]; [|reflexivity|].
  - apply Permutation_sym in Pq. apply (Permutation_in _ Pq).
    simpl. auto.
  - split; reflexivity.
Qed.

(** A worker that dies of an uncaught exception leaves nothing behind: the
    batch then returns the values of its siblings. *)
Example run_functions_partial_result :
  fst (run_functions [const (VInt 1); sys_exit] [] [] w0)
  = Return (VList [VInt 1]).
Proof. reflexivity. Qed.

(** C3, as stated, fails at two inputs.  [lambda: ValueError("bad")] returns
    an exception object and [run_function] gives back [None]; and with the
    keyword [result_queue=0], which [lambda **kw: 42] accepts, the thread's
    call of the worker fails and [run_function] never returns. *)
Lemma run_function_loses_the_value :
  (invoke returns_error [] [] = Return (VExn (mk_exn ValueError "bad"))
   /\ fst (run_function returns_error [] [] w0)
      <> Return (VExn (mk_exn ValueError "bad")))
  /\ (invoke (const (VInt 42)) [] clashing = Return (VInt 42)
      /\ fst (run_function (const (VInt 42)) [] clashing w0) <> Return (VInt 42)).
Proof. repeat split; discriminate. Qed.

(** C3, amended: a callable that, applied to [args] and [kwargs], returns a
    value [v] that is not an instance of [Exception] makes [run_function]
    return [v], provided no keyword names a parameter of the worker; nothing
    is logged at error level. *)
Theorem run_function_returns_the_value function args kwargs v w :
  invoke function args kwargs = Return v ->
  isinstance_Exception v = None ->
  clashes kwargs = false ->
  fst (run_function function args kwargs w) = Return v
  /\ errors_logged w (snd (run_function function args kwargs w)) = [].
Proof.
  intros Hi Hv Hk. rewrite (run_function_value _ _ _ _ Hk _ Hi Hv). split.
  - reflexivity.
  - unfold errors_logged. simpl. now rewrite skipn_length_app.
Qed.

(** [run_function(lambda: 42)] is [42]. *)
Lemma run_function_lambda_42 :
  (invoke (const (VInt 42)) [] [] = Return (VInt 42)
   /\ isinstance_Exception (VInt 42) = None
   /\ clashes [] = false)
  /\ fst (run_function (const (VInt 42)) [] [] w0) = Return (VInt 42)
  /\ errors_logged w0 (snd (run_function (const (VInt 42)) [] [] w0)) = [].
Proof.
  split.
  - repeat split.
  - apply (run_function_returns_the_value (const (VInt 42)) [] [] (VInt 42) w0);
      reflexivity.
Defined.

(** C4, as stated, fails at two inputs.  A batch whose only callable returns
    an exception object yields [None]; and with the keyword
    [result_queue=0] every thread dies in the call of the worker, so that
    [[lambda **kw: 1]] yields the empty list. *)
Lemma run_functions_loses_the_values :
  (Forall2 (fun f v => invoke f [] [] = Return v)
           [returns_error] [VExn (mk_exn ValueError "bad")]
   /\ fst (run_functions [returns_error] [] [] w0) = Return VNone)
  /\ (Forall2 (fun f v => invoke f [] clashing = Return v)
              [const (VInt 1)] [VInt 1]
      /\ fst (run_functions [const (VInt 1)] [] clashing w0) = Return (VList [])).
Proof. repeat split; repeat constructor. Qed.

(** C4, amended: when every callable of the batch returns, none of the
    values [V1..VN] is an instance of [Exception] and no keyword names a
    parameter of the worker, [run_functions] returns a list of length [N]
    that is a permutation of [V1..VN], under every schedule. *)
Theorem run_functions_returns_the_values functions vs args kwargs w :
  Forall2 (fun f v => invoke f args kwargs = Return v) functions vs ->
  Forall (fun v => isinstance_Exception v = None) vs ->
  clashes kwargs = false ->
  exists l,
    fst (run_functions functions args kwargs w) = Return (VList l)
    /\ List.length l = List.length functions
    /\ Permutation l vs.
Proof.
  intros Hret Hval Hk.
  destruct (outcomes_returned _ _ Hk _ _ Hret) as [Ho Hh].
  destruct (run_functions_spec args kwargs functions w)
    as (q & dl & Pq & _ & E).
  rewrite Ho in Pq. rewrite E, Hh. cbv zeta iota.
  assert (F : first_failure q = None).
  { apply first_failure_None.
    apply (Permutation_Forall (Permutation_sym Pq) Hval). }
  rewrite F. exists q. repeat split.
  - rewrite (Permutation_length Pq). symmetry. apply (Forall2_length Hret).
  - assumption.
Qed.

(** [run_functions([lambda: 1, lambda: 2, lambda: 3])], with a scheduler that
    does not follow the submission order. *)
Lemma run_functions_one_two_three :
  (Forall2 (fun f v => invoke f [] [] = Return v)
           [const (VInt 1); const (VInt 2); const (VInt 3)]
           [VInt 1; VInt 2; VInt 3]
   /\ Forall (fun v => isinstance_Exception v = None) [VInt 1; VInt 2; VInt 3]
   /\ clashes [] = false)
  /\ exists l,
       fst (run_functions [const (VInt 1); const (VInt 2); const (VInt 3)]
                          [] [] w1) = Return (VList l)
       /\ List.length l = 3
       /\ Permutation l [VInt 1; VInt 2; VInt 3].
Proof.
  assert (H1 : Forall2 (fun f v => invoke f [] [] = Return v)
                 [const (VInt 1); const (VInt 2); const (VInt 3)]
                 [VInt 1; VInt 2; VInt 3]) by (repeat constructor).
  assert (H2 : Forall (fun v => isinstance_Exception v = None)
                 [VInt 1; VInt 2; VInt 3]) by (repeat constructor).
  split.
  - repeat split; assumption.
  - exact (run_functions_returns_the_values _ _ [] [] w1 H1 H2 eq_refl).
Defined.

(** C5, as stated, fails: [raise BaseException("boom")] passes through
    [except Exception], so the worker enqueues nothing and the exception
    leaves the thread's target. *)
Lemma worker_lets_BaseException_escape :
  invoke fatal [] [] = Raise (mk_exn BaseException "boom")
  /\ _run_function_in_thread fatal [] []
     = ([], Raise (mk_exn BaseException "boom"))
  /\ ~ one_outcome (_run_function_in_thread fatal [] [])
         (VExn (mk_exn BaseException "boom")).
Proof.
  repeat split. intros [E _]. discriminate E.
Qed.

(** C5, amended: when the callable returns, or raises an instance of
    [Exception], the worker ends normally and enqueues exactly one item: the
    returned value, or the caught exception, which it has logged at error
    level first.  When the callable raises outside [Exception], the worker
    logs and enqueues nothing, and the exception leaves it. *)
Theorem worker_produces_one_outcome function args kwargs :
  (settles (invoke function args kwargs) = true ->
   one_outcome (_run_function_in_thread function args kwargs)
     match invoke function args kwargs with
     | Return v => v
     | Raise e => VExn e
     | Hang => VNone
     end
   /\ fst (_run_function_in_thread function args kwargs)
      = match invoke function args kwargs with
        | Return v => [Put v]
        | Raise e => [Log (worker_caught e); Put (VExn e)]
        | Hang => []
        end)
  /\ (forall e,
         invoke function args kwargs = Raise e ->
         issubclass_Exception (exn_class e) = false ->
         _run_function_in_thread function args kwargs = ([], Raise e)).
Proof.
  unfold one_outcome, _run_function_in_thread.
  destruct (invoke function args kwargs) as [v|e|]; simpl; split.
  - intros _. repeat split.
  - discriminate.
  - intros H. rewrite H. repeat split.
  - intros e' [= <-] H. now rewrite H.
  - discriminate.
  - discriminate.
Qed.

(** [lambda: 1/0]: the worker logs the error, then enqueues it, and ends;
    [raise BaseException("boom")] leaves the worker. *)
Lemma worker_one_outcome_division :
  (settles (invoke one_over_zero [] []) = true
   /\ invoke fatal [] [] = Raise (mk_exn BaseException "boom")
   /\ issubclass_Exception BaseException = false)
  /\ (one_outcome (_run_function_in_thread one_over_zero [] []) (VExn ZeroDivision)
      /\ fst (_run_function_in_thread one_over_zero [] [])
         = [Log (worker_caught ZeroDivision); Put (VExn ZeroDivision)])
  /\ _run_function_in_thread fatal [] []
     = ([], Raise (mk_exn BaseException "boom")).
Proof.
  split; [repeat split|]. split.
  - apply (proj1 (worker_produces_one_outcome one_over_zero [] [])). reflexivity.
  - apply (proj2 (worker_produces_one_outcome fatal [] [])); reflexivity.
Defined.

(** C6: a coroutine function whose coroutine completes with [v] and a plain
    function that returns [v] cannot be told apart through [run_function]
    or [run_functions]: result, log, clock and scheduler agree. *)
Theorem mode_transparency v coro suspendable direct args kwargs :
  suspendable args kwargs = Return coro ->
  run_until_complete coro = Return v ->
  direct args kwargs = Return v ->
  (forall w,
      run_function (Suspendable suspendable) args kwargs w
      = run_function (Direct direct) args kwargs w)
  /\ (forall pre post w,
         run_functions (pre ++ Suspendable suspendable :: post) args kwargs w
         = run_functions (pre ++ Direct direct :: post) args kwargs w).
Proof.
  intros Hs Hc Hd.
  assert (Hi : invoke (Suspendable suspendable) args kwargs
               = invoke (Direct direct) args kwargs).
  { simpl. now rewrite Hs, Hc, Hd. }
  split.
  - intros w. unfold run_function. now rewrite (Thread_ext _ _ _ _ Hi).
  - intros pre post w. unfold run_functions.
    rewrite (spawn_ext args kwargs (pre ++ Suspendable suspendable :: post)
               (pre ++ Direct direct :: post)); [reflexivity|].
    apply Forall2_refl_at; [reflexivity|exact Hi].
Qed.

(** An [async def] that sleeps and returns ["done"], against
    [lambda: "done"]. *)
Lemma mode_transparency_done :
  (forall w,
      run_function (sleep_then (VStr "done")) [] [] w
      = run_function (const (VStr "done")) [] [] w)
  /\ (forall pre post w,
         run_functions (pre ++ sleep_then (VStr "done") :: post) [] [] w
         = run_functions (pre ++ const (VStr "done") :: post) [] [] w).
Proof.
  apply (mode_transparency (VStr "done") (CoAwait (CoReturn (VStr "done"))));
    reflexivity.
Defined.

(** C7, as stated, fails at two inputs: after the joins of a batch whose
    only callable raises a [BaseException], and after those of a batch
    called with the keyword [result_queue=0], the queue is empty. *)
Lemma queue_short_after_join :
  fst (Main.start_join (spawn [fatal] [] []) Main.Queue w0) = Return []
  /\ fst (Main.start_join (spawn [const (VInt 1)] [] clashing) Main.Queue w0)
     = Return [].
Proof. split; reflexivity. Qed.

(** C7, amended: when every callable of the batch returns or raises an
    instance of [Exception], and no keyword names a parameter of the worker,
    the joins complete and the queue then holds as many items as there are
    callables, under every schedule. *)
Theorem queue_population_after_join functions args kwargs w :
  Forall (fun f => settles (invoke f args kwargs) = true) functions ->
  clashes kwargs = false ->
  exists q w',
    Main.start_join (spawn functions args kwargs) Main.Queue w = (Return q, w')
    /\ List.length q = List.length functions
    /\ Permutation q (outcomes args kwargs functions).
Proof.
  intros Hs Hk.
  destruct (outcomes_settled _ _ Hk _ Hs) as [Hlen Hh].
  destruct (start_join_spawn args kwargs functions w) as (q & dl & E & Pq & _).
  rewrite Hh in E.
  exists q. eexists. split; [exact E|]. split; [|exact Pq].
  now rewrite (Permutation_length Pq).
Qed.

(** [[lambda: 1, lambda: 1/0]]: two items after the joins. *)
Lemma queue_population_sample :
  (Forall (fun f => settles (invoke f [] []) = true)
          [const (VInt 1); one_over_zero]
   /\ clashes [] = false)
  /\ exists q w',
       Main.start_join (spawn [const (VInt 1); one_over_zero] [] [])
                       Main.Queue w1 = (Return q, w')
       /\ List.length q = 2
       /\ Permutation q (outcomes [] [] [const (VInt 1); one_over_zero]).
Proof.
  assert (H : Forall (fun f => settles (invoke f [] []) = true)
                [const (VInt 1); one_over_zero]) by (repeat constructor).
  split.
  - split; [exact H|reflexivity].
  - exact (queue_population_after_join _ [] [] w1 H eq_refl).
Defined.

(** C8, as stated, fails at two inputs: a callable that raises a
    [BaseException], and [lambda **kw: 1/0] called with the keyword
    [result_queue=0], are logged at error level not once, and
    [run_function] never returns. *)
Lemma dual_logging_missed :
  (invoke fatal [] [] = Raise (mk_exn BaseException "boom")
   /\ run_function fatal [] [] w0
      = (Hang, mk_world [run_function_started] [250%Z] []))
  /\ (invoke one_over_zero [] clashing = Raise ZeroDivision
      /\ run_function one_over_zero [] clashing w0
         = (Hang, mk_world [run_function_started] [250%Z] [])).
Proof. repeat split. Qed.

(** C8, amended: when the callable raises an instance of [Exception] under
    [run_function], and no keyword names a parameter of the worker, the call
    logs exactly two error entries, first the worker's, then the caller's,
    each carrying the text of the exception. *)
Theorem dual_logging function args kwargs e w :
  invoke function args kwargs = Raise e ->
  issubclass_Exception (exn_class e) = true ->
  clashes kwargs = false ->
  errors_logged w (snd (run_function function args kwargs w))
  = [worker_caught e; run_function_caught e].
Proof.
  intros Hi He Hk. rewrite (run_function_raised_Exception _ _ _ _ Hk _ Hi He).
  unfold errors_logged. simpl. now rewrite skipn_length_app.
Qed.

(** [run_function(lambda: 1/0)] logs the division error twice. *)
Lemma dual_logging_division :
  (invoke one_over_zero [] [] = Raise ZeroDivision
   /\ issubclass_Exception (exn_class ZeroDivision) = true
   /\ clashes [] = false)
  /\ errors_logged w0 (snd (run_function one_over_zero [] [] w0))
     = [worker_caught ZeroDivision; run_function_caught ZeroDivision].
Proof.
  split.
  - repeat split.
  - apply (dual_logging one_over_zero [] [] ZeroDivision w0); reflexivity.
Defined.

(** C9: on the empty list [run_functions] creates no thread and returns the
    empty list, having logged its start and its end. *)
Theorem run_functions_empty args kwargs w :
  spawn [] args kwargs = []
  /\ run_functions [] args kwargs w
     = (Return (VList []),
        mk_world (logger w
                  ++ [run_functions_started;
                      run_functions_finished
                        (hd 0 (tl (clock w)) - hd 0 (clock w))%Z])
                 (tl (tl (clock w))) (scheduler w)).
Proof.
  split; [reflexivity|].
  unfold run_functions, Main.try_except_Exception, Main.bind. simpl.
  unfold Main.ret. now rewrite <- app_assoc.
Qed.

(** C10, as stated, fails: a callable that returns an instance of
    [Exception] can be told from one that raises it.  The worker logs the
    raised one and not the returned one, so the call leaves one error entry
    in the log for [lambda: ValueError("bad")] and two for a function that
    raises the same exception. *)
Lemma returned_and_raised_differ_in_the_log :
  (invoke returns_error [] [] = Return (VExn (mk_exn ValueError "bad"))
   /\ invoke (raising (mk_exn ValueError "bad")) [] []
      = Raise (mk_exn ValueError "bad"))
  /\ errors_logged w0 (snd (run_function returns_error [] [] w0))
     = [run_function_caught (mk_exn ValueError "bad")]
  /\ errors_logged w0
       (snd (run_function (raising (mk_exn ValueError "bad")) [] [] w0))
     = [worker_caught (mk_exn ValueError "bad");
        run_function_caught (mk_exn ValueError "bad")]
  /\ run_function returns_error [] [] w0
     <> run_function (raising (mk_exn ValueError "bad")) [] [] w0.
Proof. repeat split. discriminate. Qed.

(** C10, amended: a callable that returns an instance of [Exception] is
    treated as a failure by [run_function] and [run_functions], which see
    only the dequeued value.  It leaves the same item in the queue as a
    callable that raises the exception; [run_function] raises the item,
    logs it at its own boundary and returns [None], in both cases;
    [run_functions], when every worker terminates, returns [None] after one
    error entry of its own for an [Exception] of the queue, in both cases.
    Only the worker's error entry, written for the raised exception and not
    for the returned one, tells the two apart. *)
Theorem returned_exception_is_a_failure e returning raising_ args kwargs :
  issubclass_Exception (exn_class e) = true ->
  invoke returning args kwargs = Return (VExn e) ->
  invoke raising_ args kwargs = Raise e ->
  clashes kwargs = false ->
  (forall w,
      fst (Main.start_join [Thread returning args kwargs] Main.Queue w)
      = Return [VExn e]
      /\ fst (Main.start_join [Thread raising_ args kwargs] Main.Queue w)
         = Return [VExn e])
  /\ (forall w,
         run_function returning args kwargs w
         = (Return VNone,
            mk_world (logger w ++ [run_function_started; run_function_caught e])
                     (tl (clock w)) (skipn 1 (scheduler w)))
         /\ run_function raising_ args kwargs w
            = (Return VNone,
               mk_world (logger w
                         ++ [run_function_started; worker_caught e;
                             run_function_caught e])
                        (tl (clock w)) (skipn 2 (scheduler w))))
  /\ (forall pre post w,
         existsb (fun g => is_Hang (invoke g args kwargs)) (pre ++ post) = false ->
         (exists dl e',
             fst (run_functions (pre ++ returning :: post) args kwargs w)
             = Return VNone
             /\ errors_logged w
                  (snd (run_functions (pre ++ returning :: post) args kwargs w))
                = dl ++ [run_functions_caught e']
             /\ Permutation dl
                  (flat_map (fun g => worker_error (invoke g args kwargs)) pre
                   ++ flat_map (fun g => worker_error (invoke g args kwargs)) post)
             /\ In (VExn e')
                  (flat_map (fun g => outcome (invoke g args kwargs)) pre
                   ++ [VExn e]
                   ++ flat_map (fun g => outcome (invoke g args kwargs)) post)
             /\ issubclass_Exception (exn_class e') = true)
         /\ (exists dl e',
                fst (run_functions (pre ++ raising_ :: post) args kwargs w)
                = Return VNone
                /\ errors_logged w
                     (snd (run_functions (pre ++ raising_ :: post) args kwargs w))
                   = dl ++ [run_functions_caught e']
                /\ Permutation dl
                     (flat_map (fun g => worker_error (invoke g args kwargs)) pre
                      ++ [worker_caught e]
                      ++ flat_map (fun g => worker_error (invoke g args kwargs)) post)
                /\ In (VExn e')
                     (flat_map (fun g => outcome (invoke g args kwargs)) pre
                      ++ [VExn e]
                      ++ flat_map (fun g => outcome (invoke g args kwargs)) post)
                /\ issubclass_Exception (exn_class e') = true)).
Proof.
  intros He Hret Hraise Hk. split; [|split].
  - intros w. rewrite !(Thread_bound _ _ _ Hk).
    rewrite (worker_Return _ _ _ _ Hret).
    rewrite (worker_Raise_Exception _ _ _ _ Hraise He).
    rewrite !start_join_single. split; reflexivity.
  - intros w. split.
    + exact (run_function_returned_Exception _ _ _ _ Hk _ Hret He).
    + exact (run_function_raised_Exception _ _ _ _ Hk _ Hraise He).
  - intros pre post w Hh.
    assert (G : forall f, f = returning \/ f = raising_ ->
      exists dl e',
        fst (run_functions (pre ++ f :: post) args kwargs w) = Return VNone
        /\ errors_logged w (snd (run_functions (pre ++ f :: post) args kwargs w))
           = dl ++ [run_functions_caught e']
        /\ Permutation dl
             (flat_map (fun g => worker_error (invoke g args kwargs)) pre
              ++ worker_error (invoke f args kwargs)
              ++ flat_map (fun g => worker_error (invoke g args kwargs)) post)
        /\ In (VExn e')
             (flat_map (fun g => outcome (invoke g args kwargs)) pre
              ++ [VExn e]
              ++ flat_map (fun g => outcome (invoke g args kwargs)) post)
        /\ issubclass_Exception (exn_class e') = true);
      [intros f Hf|].
    2:{ split.
        - destruct (G returning (or_introl eq_refl)) as (dl & e' & R & L & P & I & E).
          rewrite Hret in P. exists dl, e'. repeat split; assumption.
        - destruct (G raising_ (or_intror eq_refl)) as (dl & e' & R & L & P & I & E).
          rewrite Hraise in P. simpl in P. rewrite He in P.
          exists dl, e'. repeat split; assumption. }
    assert (Hfails : fails (invoke f args kwargs) = true).
    { destruct Hf as [->| ->]; [rewrite Hret|rewrite Hraise]; simpl;
        now rewrite He. }
    assert (Hout : outcome (invoke f args kwargs) = [VExn e]).
    { destruct Hf as [->| ->]; [rewrite Hret|rewrite Hraise]; simpl;
        [reflexivity|now rewrite He]. }
    assert (Hnh : is_Hang (invoke f args kwargs) = false).
    { destruct Hf as [->| ->]; [rewrite Hret|rewrite Hraise]; reflexivity. }
    destruct (run_functions_failure (pre ++ f :: post) f args kwargs w)
      as (dl & e' & R & L & Pl & Hin & He'); try assumption.
    + apply in_or_app. right. now left.
    + rewrite existsb_app in *. simpl. rewrite Hnh.
      apply orb_false_iff in Hh. destruct Hh as [-> ->]. reflexivity.
    + exists dl, e'.
      rewrite flat_map_app in Pl, Hin. simpl in Pl, Hin.
      rewrite Hout in Hin.
      repeat split; assumption.
Qed.

(** [lambda: ValueError("bad")] against [def f(): raise ValueError("bad")]. *)
Lemma returned_exception_sample :
  (issubclass_Exception ValueError = true
   /\ invoke returns_error [] [] = Return (VExn (mk_exn ValueError "bad"))
   /\ invoke (raising (mk_exn ValueError "bad")) [] []
      = Raise (mk_exn ValueError "bad")
   /\ clashes [] = false)
  /\ run_function returns_error [] [] w0
     = (Return VNone,
        mk_world ([] ++ [run_function_started;
                         run_function_caught (mk_exn ValueError "bad")])
                 [250%Z] [])
  /\ exists dl e',
       fst (run_functions ([const (VInt 1)] ++ returns_error :: []) [] [] w1)
       = Return VNone
       /\ errors_logged w1
            (snd (run_functions ([const (VInt 1)] ++ returns_error :: []) [] [] w1))
          = dl ++ [run_functions_caught e'].
Proof.
  split.
  - repeat split.
  - pose proof (returned_exception_is_a_failure
                  (mk_exn ValueError "bad") returns_error
                  (raising (mk_exn ValueError "bad")) [] []
                  eq_refl eq_refl eq_refl eq_refl) as (_ & H1 & H2).
    split.
    + exact (proj1 (H1 w0)).
    + destruct (proj1 (H2 [const (VInt 1)] [] w1 eq_refl))
        as (dl & e' & R & L & _).
      exists dl, e'. split; assumption.
Defined.

(** * Further properties of the three methods *)

(** ** Further properties of [run_function] *)

(** X1: what a call of [run_function] gives its caller.  A keyword named
    [cls] or [function] makes the call itself raise [TypeError]; a keyword
    named [result_queue] makes it block, as do a callable that never returns
    and one that raises outside [Exception]; a raised or returned
    [Exception] gives [None]; otherwise the callable's value comes back. *)
Theorem run_function_result function args kw w :
  fst (ThreadRunner.run_function function args kw w)
  = if names ["cls"; "function"] kw
    then Raise (multiple_values "run_function")
    else if names ["result_queue"] kw then Hang
    else match invoke function args kw with
         | Return v =>
             match isinstance_Exception v with
             | Some _ => Return VNone
             | None => Return v
             end
         | Raise e =>
             if issubclass_Exception (exn_class e) then Return VNone else Hang
         | Hang => Hang
         end.
Proof.
  unfold ThreadRunner.run_function.
  destruct (names ["cls"; "function"] kw) eqn:Hb; [reflexivity|].
  rewrite run_function_cases. now rewrite (clashes_in_run_function _ Hb).
Qed.



(** X4: an [Exception] the callable returns is logged once by
    [run_function], at the caller's boundary only: the worker, which saw a
    normal return, logs nothing. *)
Theorem returned_exception_logged_once function args kwargs e w :
  invoke function args kwargs = Return (VExn e) ->
  issubclass_Exception (exn_class e) = true ->
  clashes kwargs = false ->
  errors_logged w (snd (run_function function args kwargs w))
  = [run_function_caught e].
Proof.
  intros Hi He Hk. rewrite (run_function_returned_Exception _ _ _ _ Hk _ Hi He).
  unfold errors_logged. simpl. now rewrite skipn_length_app.
Qed.

(** [run_function(lambda: ValueError("bad"))] *)
Lemma returned_exception_logged_once_sample :
  (invoke Samples.returns_error [] []
   = Return (VExn (mk_exn ValueError "bad"))
   /\ issubclass_Exception ValueError = true
   /\ clashes [] = false)
  /\ errors_logged Samples.w0 (snd (run_function Samples.returns_error [] [] Samples.w0))
     = [run_function_caught (mk_exn ValueError "bad")].
Proof.
  split.
  - repeat split.
  - apply (returned_exception_logged_once Samples.returns_error [] []
             (mk_exn ValueError "bad") Samples.w0); reflexivity.
Defined.

(** X5: with its single worker, [run_function] does not depend on the
    scheduler: result, log and clock are the same under any two. *)
Theorem run_function_schedule_independent function args kwargs lg ck s1 s2 :
  fst (run_function function args kwargs (mk_world lg ck s1))
  = fst (run_function function args kwargs (mk_world lg ck s2))
  /\ logger (snd (run_function function args kwargs (mk_world lg ck s1)))
     = logger (snd (run_function function args kwargs (mk_world lg ck s2)))
  /\ clock (snd (run_function function args kwargs (mk_world lg ck s1)))
     = clock (snd (run_function function args kwargs (mk_world lg ck s2))).
Proof.
  destruct (clashes kwargs) eqn:Hk.
  { rewrite !(run_function_clash _ _ _ _ Hk). repeat split. }
  destruct (invoke function args kwargs) as [v|e|] eqn:Hi.
  - destruct (isinstance_Exception v) as [e|] eqn:Hv.
    + destruct (isinstance_Exception_Some _ _ Hv) as [-> He].
      rewrite !(run_function_returned_Exception _ _ _ _ Hk _ Hi He).
      repeat split.
    + rewrite !(run_function_value _ _ _ _ Hk _ Hi Hv). repeat split.
  - destruct (issubclass_Exception (exn_class e)) eqn:He.
    + rewrite !(run_function_raised_Exception _ _ _ _ Hk _ Hi He). repeat split.
    + rewrite !(run_function_escaped _ _ _ _ Hk _ Hi He). repeat split.
  - rewrite !(run_function_hung _ _ _ _ Hk Hi). repeat split.
Qed.

(** X6: [None] is ambiguous for the caller of [run_function]: a callable
    that returns [None] and one that fails both make the call return
    [None]. *)
Theorem none_is_ambiguous succeeding failing args kwargs w :
  invoke succeeding args kwargs = Return VNone ->
  fails (invoke failing args kwargs) = true ->
  clashes kwargs = false ->
  fst (run_function succeeding args kwargs w) = Return VNone
  /\ fst (run_function failing args kwargs w) = Return VNone.
Proof.
  intros Hs Hf Hk. rewrite !run_function_cases, Hk, Hs. split; [reflexivity|].
  unfold fails in Hf.
  destruct (invoke failing args kwargs) as [v|e|]; try discriminate.
  - now destruct (isinstance_Exception v).
  - now rewrite Hf.
Qed.

(** [lambda: None] against [lambda: 1/0]. *)
Lemma none_is_ambiguous_sample :
  (invoke (Samples.const VNone) [] [] = Return VNone
   /\ fails (invoke Samples.one_over_zero [] []) = true
   /\ clashes [] = false)
  /\ fst (run_function (Samples.const VNone) [] [] Samples.w0) = Return VNone
  /\ fst (run_function Samples.one_over_zero [] [] Samples.w0) = Return VNone.
Proof.
  split.
  - repeat split.
  - apply (none_is_ambiguous (Samples.const VNone) Samples.one_over_zero [] []
             Samples.w0); reflexivity.
Defined.

(** ** Further properties of the worker and of the collecting loop *)

(** X7: whatever the callable does, the worker enqueues at most one item,
    and it logs only when it has caught an [Exception], in which case its
    whole run is: log the error, enqueue the exception, end normally. *)
Theorem worker_at_most_one_outcome function args kwargs :
  List.length (puts_of (fst (_run_function_in_thread function args kwargs))) <= 1
  /\ (logs_of (fst (_run_function_in_thread function args kwargs)) = []
      \/ exists e,
           issubclass_Exception (exn_class e) = true
           /\ _run_function_in_thread function args kwargs
              = ([Log (worker_caught e); Put (VExn e)], Return tt)).
Proof.
  unfold _run_function_in_thread.
  destruct (invoke function args kwargs) as [v|e|]; simpl; auto.
  destruct (issubclass_Exception (exn_class e)) eqn:He; simpl; auto.
  split; [lia|]. right. exists e. auto.
Qed.

(** X8: the collecting loop raises the first [Exception] of the queue,
    whatever was dequeued before it and whatever follows it; no log entry is
    written by the loop itself. *)
Theorem drain_raises_first_failure good e rest results w :
  Forall (fun v => isinstance_Exception v = None) good ->
  issubclass_Exception (exn_class e) = true ->
  drain (good ++ VExn e :: rest) results w = (Raise e, w).
Proof.
  intros Hg He. rewrite drain_spec.
  assert (F : first_failure (good ++ VExn e :: rest) = Some e).
  { induction Hg as [|v good Hv _ IH]; simpl.
    - now rewrite He.
    - now rewrite Hv. }
  now rewrite F.
Qed.

(** A value, then two exceptions: the first one is raised. *)
Lemma drain_raises_first_failure_sample :
  (Forall (fun v => isinstance_Exception v = None) [VInt 1]
   /\ issubclass_Exception (exn_class Samples.ZeroDivision) = true)
  /\ drain ([VInt 1] ++ VExn Samples.ZeroDivision
                     :: [VExn (mk_exn ValueError "bad")]) [] Samples.w0
     = (Raise Samples.ZeroDivision, Samples.w0).
Proof.
  assert (H : Forall (fun v => isinstance_Exception v = None) [VInt 1])
    by (repeat constructor).
  split.
  - split; [exact H|reflexivity].
  - exact (drain_raises_first_failure [VInt 1] Samples.ZeroDivision
             [VExn (mk_exn ValueError "bad")] [] Samples.w0 H eq_refl).
Defined.

(** X9: when no item of the queue is an [Exception], the collecting loop
    appends the items to [results] in the order of the queue. *)
Theorem drain_keeps_queue_order result_queue results w :
  Forall (fun v => isinstance_Exception v = None) result_queue ->
  drain result_queue results w = (Return (results ++ result_queue), w).
Proof.
  intros H. rewrite drain_spec.
  now rewrite (proj2 (first_failure_None result_queue) H).
Qed.

Lemma drain_keeps_queue_order_sample :
  Forall (fun v => isinstance_Exception v = None) [VInt 2; VInt 1]
  /\ drain [VInt 2; VInt 1] [VInt 3] Samples.w0
     = (Return [VInt 3; VInt 2; VInt 1], Samples.w0).
Proof.
  assert (H : Forall (fun v => isinstance_Exception v = None) [VInt 2; VInt 1])
    by (repeat constructor).
  split.
  - exact H.
  - exact (drain_keeps_queue_order [VInt 2; VInt 1] [VInt 3] Samples.w0 H).
Defined.

(** X10: the two modes are treated alike whatever the outcome: a coroutine
    function whose coroutine ends in some way (a value, an exception, never)
    and a plain function that ends in the same way give the same run of
    [run_function] and of [run_functions]. *)
Theorem mode_transparency_for_every_ending coro suspendable direct args kwargs :
  suspendable args kwargs = Return coro ->
  direct args kwargs = run_until_complete coro ->
  (forall w,
      run_function (Suspendable suspendable) args kwargs w
      = run_function (Direct direct) args kwargs w)
  /\ (forall pre post w,
         run_functions (pre ++ Suspendable suspendable :: post) args kwargs w
         = run_functions (pre ++ Direct direct :: post) args kwargs w).
Proof.
  intros Hs Hd.
  assert (Hi : invoke (Suspendable suspendable) args kwargs
               = invoke (Direct direct) args kwargs).
  { simpl. now rewrite Hs, Hd. }
  split.
  - intros w. unfold run_function. now rewrite (Thread_ext _ _ _ _ Hi).
  - intros pre post w. unfold run_functions.
    rewrite (spawn_ext args kwargs (pre ++ Suspendable suspendable :: post)
               (pre ++ Direct direct :: post)); [reflexivity|].
    apply Forall2_refl_at; [reflexivity|exact Hi].
Qed.

(** An [async def] that sleeps and then divides by zero, against
    [lambda: 1/0]. *)
Lemma mode_transparency_division :
  (forall w,
      run_function
        (Suspendable (fun _ _ => Return (CoAwait (CoRaise Samples.ZeroDivision))))
        [] [] w
      = run_function Samples.one_over_zero [] [] w)
  /\ (forall pre post w,
         run_functions
           (pre ++ Suspendable
                     (fun _ _ => Return (CoAwait (CoRaise Samples.ZeroDivision)))
                :: post) [] [] w
         = run_functions (pre ++ Samples.one_over_zero :: post) [] [] w).
Proof.
  apply (mode_transparency_for_every_ending
           (CoAwait (CoRaise Samples.ZeroDivision))); reflexivity.
Defined.

(** ** Further properties of [run_functions] *)

(** X11: one failure poisons the batch.  When some callable raises or
    returns an [Exception] and every worker terminates, [run_functions]
    returns [None] under every schedule, whatever the other callables
    returned. *)
Theorem one_failure_poisons_the_batch functions failing args kwargs w :
  In failing functions ->
  fails (invoke failing args kwargs) = true ->
  existsb (fun f => is_Hang (invoke f args kwargs)) functions = false ->
  clashes kwargs = false ->
  fst (run_functions functions args kwargs w) = Return VNone.
Proof.
  intros Hin Hf Hh Hk.
  destruct (run_functions_spec args kwargs functions w)
    as (q & dl & Pq & _ & ->).
  cbv zeta. rewrite (some_hangs_bound _ _ Hk), Hh.
  destruct (fails_outcome args kwargs failing Hf) as (e & Ho & He).
  destruct (failure_in_queue q e) as [e' ->]; [|exact He|reflexivity].
  apply (Permutation_in _ (Permutation_sym Pq)).
  rewrite (outcomes_bound _ _ Hk). apply in_flat_map.
  exists failing. split; [exact Hin|]. rewrite Ho. now left.
Qed.

(** [[lambda: 1, lambda: ValueError("bad"), lambda: 3]] *)
Lemma one_failure_poisons_the_batch_sample :
  (In Samples.returns_error
      [Samples.const (VInt 1); Samples.returns_error; Samples.const (VInt 3)]
   /\ fails (invoke Samples.returns_error [] []) = true
   /\ existsb (fun f => is_Hang (invoke f [] []))
        [Samples.const (VInt 1); Samples.returns_error; Samples.const (VInt 3)]
      = false
   /\ clashes [] = false)
  /\ fst (run_functions
            [Samples.const (VInt 1); Samples.returns_error; Samples.const (VInt 3)]
            [] [] Samples.w1) = Return VNone.
Proof.
  split.
  - repeat split. simpl. auto.
  - apply (one_failure_poisons_the_batch _ Samples.returns_error [] [] Samples.w1);
      [simpl; auto|reflexivity|reflexivity|reflexivity].
Defined.

(** X12: there is no timeout.  When one callable of the batch never
    returns, neither does [run_functions], under every schedule. *)
Theorem one_hung_callable_blocks_the_batch functions hung args kwargs w :
  In hung functions ->
  invoke hung args kwargs = Hang ->
  clashes kwargs = false ->
  fst (run_functions functions args kwargs w) = Hang.
Proof.
  intros Hin Hh Hk.
  destruct (run_functions_spec args kwargs functions w)
    as (q & dl & _ & _ & ->).
  cbv zeta. rewrite (some_hangs_bound _ _ Hk).
  assert (E : existsb (fun f => is_Hang (invoke f args kwargs)) functions = true).
  { apply existsb_exists. exists hung. split; [exact Hin|]. now rewrite Hh. }
  now rewrite E.
Qed.

(** [[lambda: 1, f]] where [f] awaits forever. *)
Lemma one_hung_callable_sample :
  (In (Suspendable (fun _ _ => Return CoForever))
      [Samples.const (VInt 1); Suspendable (fun _ _ => Return CoForever)]
   /\ invoke (Suspendable (fun _ _ => Return CoForever)) [] [] = Hang
   /\ clashes [] = false)
  /\ fst (run_functions
            [Samples.const (VInt 1); Suspendable (fun _ _ => Return CoForever)]
            [] [] Samples.w0) = Hang.
Proof.
  split.
  - repeat split. simpl. auto.
  - apply (one_hung_callable_blocks_the_batch _
             (Suspendable (fun _ _ => Return CoForever)) [] [] Samples.w0);
      [simpl; auto|reflexivity|reflexivity].
Defined.

(** X13: a keyword named [function] or [result_queue] empties the batch.
    It passes the binding of [run_functions] and clashes in every thread
    with a parameter of the worker: the threads die before any callable
    runs, and the call returns the empty list without an error entry in the
    log, whatever the callables are. *)
Theorem clashing_keyword_empties_the_batch functions args kw w :
  names ["cls"; "functions"] kw = false ->
  names ["function"; "result_queue"] kw = true ->
  fst (ThreadRunner.run_functions functions args kw w) = Return (VList [])
  /\ errors_logged w (snd (ThreadRunner.run_functions functions args kw w)) = [].
Proof.
  intros Hb Hc. unfold ThreadRunner.run_functions. rewrite Hb.
  assert (Hk : clashes kw = true)
    by now rewrite (clashes_in_run_functions _ Hb).
  destruct (run_functions_spec args kw functions w)
    as (q & dl & Pq & Pl & ->).
  cbv zeta. rewrite (some_hangs_clash _ _ _ Hk).
  rewrite (outcomes_clash _ _ _ Hk) in Pq.
  rewrite (worker_errors_clash _ _ _ Hk) in Pl.
  apply Permutation_sym, Permutation_nil in Pq.
  apply Permutation_sym, Permutation_nil in Pl. subst q dl.
  split; [reflexivity|].
  unfold errors_logged. simpl. now rewrite skipn_length_app.
Qed.

(** [run_functions([lambda **kw: 1/0], result_queue=0)] *)
Lemma clashing_keyword_sample :
  (names ["cls"; "functions"] Samples.clashing = false
   /\ names ["function"; "result_queue"] Samples.clashing = true)
  /\ fst (ThreadRunner.run_functions [Samples.one_over_zero] [] Samples.clashing
            Samples.w0)
     = Return (VList [])
  /\ errors_logged Samples.w0
       (snd (ThreadRunner.run_functions [Samples.one_over_zero] []
               Samples.clashing Samples.w0))
     = [].
Proof.
  split.
  - split; reflexivity.
  - apply (clashing_keyword_empties_the_batch [Samples.one_over_zero] []
             Samples.clashing Samples.w0); reflexivity.
Defined.

(** X14: a worker that dies of an exception outside [Exception] is dropped
    without a trace.  When the other callables return values that are not
    [Exception]s, [run_functions] returns those, one fewer than there are
    callables, as if the dead worker had not been submitted. *)
Theorem escaped_worker_is_dropped pre escaping post vs args kwargs w :
  Forall2 (fun f v => invoke f args kwargs = Return v) (pre ++ post) vs ->
  Forall (fun v => isinstance_Exception v = None) vs ->
  escapes (invoke escaping args kwargs) = true ->
  clashes kwargs = false ->
  exists l,
    fst (run_functions (pre ++ escaping :: post) args kwargs w) = Return (VList l)
    /\ Permutation l vs
    /\ S (List.length l) = List.length (pre ++ escaping :: post).
Proof.
  intros Hret Hval He Hk.
  destruct (outcomes_returned _ _ Hk _ _ Hret) as [Ho Hh].
  assert (Hesc : outcome (invoke escaping args kwargs) = []
                 /\ is_Hang (invoke escaping args kwargs) = false).
  { unfold escapes in He.
    destruct (invoke escaping args kwargs) as [v|e|]; try discriminate.
    simpl. destruct (issubclass_Exception (exn_class e)); [discriminate|auto]. }
  destruct Hesc as [Eo Eh].
  assert (Ho' : outcomes args kwargs (pre ++ escaping :: post) = vs).
  { rewrite <- Ho, (outcomes_bound _ _ Hk), (outcomes_bound _ _ Hk).
    rewrite !flat_map_app. simpl. now rewrite Eo. }
  assert (Hh' : some_hangs args kwargs (pre ++ escaping :: post) = false).
  { rewrite <- Hh, (some_hangs_bound _ _ Hk), (some_hangs_bound _ _ Hk).
    rewrite !existsb_app. simpl. now rewrite Eh. }
  destruct (run_functions_spec args kwargs (pre ++ escaping :: post) w)
    as (q & dl & Pq & _ & ->).
  rewrite Ho' in Pq. cbv zeta. rewrite Hh'.
  assert (F : first_failure q = None).
  { apply first_failure_None.
    apply (Permutation_Forall (Permutation_sym Pq) Hval). }
  rewrite F. exists q. repeat split; [exact Pq|].
  rewrite (Permutation_length Pq), <- (Forall2_length Hret).
  rewrite !length_app. simpl. lia.
Qed.

(** [[lambda: 1, f, lambda: 3]] where [f] raises [BaseException("boom")]. *)
Lemma escaped_worker_sample :
  (Forall2 (fun f v => invoke f [] [] = Return v)
           ([Samples.const (VInt 1)] ++ [Samples.const (VInt 3)]) [VInt 1; VInt 3]
   /\ Forall (fun v => isinstance_Exception v = None) [VInt 1; VInt 3]
   /\ escapes (invoke Samples.fatal [] []) = true
   /\ clashes [] = false)
  /\ exists l,
       fst (run_functions
              ([Samples.const (VInt 1)] ++ Samples.fatal :: [Samples.const (VInt 3)])
              [] [] Samples.w1) = Return (VList l)
       /\ Permutation l [VInt 1; VInt 3]
       /\ S (List.length l) = 3.
Proof.
  assert (H1 : Forall2 (fun f v => invoke f [] [] = Return v)
                 ([Samples.const (VInt 1)] ++ [Samples.const (VInt 3)])
                 [VInt 1; VInt 3]) by (repeat constructor).
  assert (H2 : Forall (fun v => isinstance_Exception v = None) [VInt 1; VInt 3])
    by (repeat constructor).
  split.
  - repeat split; assumption.
  - exact (escaped_worker_is_dropped [Samples.const (VInt 1)] Samples.fatal
             [Samples.const (VInt 3)] [VInt 1; VInt 3] [] [] Samples.w1
             H1 H2 eq_refl eq_refl).
Defined.

(** X16: what a failed batch logs at error level.  When [run_functions]
    returns [None], the error entries of the call are those of the workers
    that caught an [Exception], in some order, followed by exactly one entry
    of the caller, for an [Exception] that some worker enqueued. *)
Theorem failed_batch_error_log functions args kwargs w :
  fst (run_functions functions args kwargs w) = Return VNone ->
  clashes kwargs = false ->
  exists dl e,
    errors_logged w (snd (run_functions functions args kwargs w))
    = dl ++ [run_functions_caught e]
    /\ Permutation dl
         (flat_map (fun f => worker_error (invoke f args kwargs)) functions)
    /\ In (VExn e) (flat_map (fun f => outcome (invoke f args kwargs)) functions)
    /\ issubclass_Exception (exn_class e) = true.
Proof.
  intros Hr Hk.
  destruct (run_functions_spec args kwargs functions w)
    as (q & dl & Pq & Pl & E).
  rewrite E in Hr |- *. cbv zeta in Hr |- *.
  destruct (some_hangs args kwargs functions); [discriminate Hr|].
  destruct (first_failure q) as [e|] eqn:F; [|discriminate Hr].
  destruct (first_failure_Some _ _ F) as [Hin He].
  exists dl, e. repeat split.
  - unfold errors_logged. cbn [snd logger]. rewrite skipn_length_app.
    cbn [filter is_error log_level run_functions_started].
    rewrite filter_app. cbn.
    rewrite filter_all; [reflexivity|].
    intros x Hx. apply (worker_errors_are_errors args kwargs functions).
    apply (Permutation_in _ Pl Hx).
  - now rewrite <- (worker_errors_bound _ _ Hk).
  - rewrite <- (outcomes_bound _ _ Hk). apply (Permutation_in _ Pq Hin).
  - exact He.
Qed.

(** [[lambda: 1, lambda: 1/0]] *)
Lemma failed_batch_error_log_sample :
  (fst (run_functions [Samples.const (VInt 1); Samples.one_over_zero] [] []
          Samples.w1) = Return VNone
   /\ clashes [] = false)
  /\ exists dl e,
       errors_logged Samples.w1
         (snd (run_functions [Samples.const (VInt 1); Samples.one_over_zero] [] []
                 Samples.w1))
       = dl ++ [run_functions_caught e]
       /\ Permutation dl
            (flat_map (fun f => worker_error (invoke f [] []))
                      [Samples.const (VInt 1); Samples.one_over_zero])
       /\ In (VExn e)
             (flat_map (fun f => outcome (invoke f [] []))
                       [Samples.const (VInt 1); Samples.one_over_zero])
       /\ issubclass_Exception (exn_class e) = true.
Proof.
  split.
  - split; reflexivity.
  - apply (failed_batch_error_log
             [Samples.const (VInt 1); Samples.one_over_zero] [] [] Samples.w1);
      reflexivity.
Defined.

(** *** Every arrival order has its schedule *)

Lemma pending_single_put ts :
  Forall single_put ts -> pending ts = List.length (owed ts).
Proof.
  unfold pending, owed.
  induction 1 as [|[tr fin] ts H _ IH]; [reflexivity|].
  simpl. rewrite length_app, IH.
  destruct H as [E|[v E]]; simpl in E; subst tr; reflexivity.
Qed.

Lemma pick_put ts v :
  Forall single_put ts -> In v (owed ts) ->
  exists k ts',
    pick k ts = Some (Put v, ts')
    /\ k < runnable_count ts
    /\ Forall single_put ts'
    /\ Permutation (v :: owed ts') (owed ts).
Proof.
  unfold runnable_count.
  induction 1 as [|[tr fin] ts H Hts IH]; intros Hin; [destruct Hin|].
  destruct H as [E|[u E]]; simpl in E; subst tr.
  - destruct (IH Hin) as (k & ts' & Hp & Hk & Hs & HP).
    exists k, (([], fin) :: ts'). simpl. rewrite Hp.
    repeat split; [exact Hk| |exact HP].
    constructor; [now left|exact Hs].
  - destruct Hin as [<-|Hin].
    + exists 0, (([], fin) :: ts). simpl.
      repeat split; [lia| |reflexivity].
      constructor; [now left|exact Hts].
    + destruct (IH Hin) as (k & ts' & Hp & Hk & Hs & HP).
      exists (S k), (([Put u], fin) :: ts'). simpl. rewrite Hp.
      repeat split; [lia| |].
      * constructor; [right; exists u; reflexivity|exact Hs].
      * eapply Permutation_trans; [apply perm_swap|].
        now apply perm_skip.
Qed.

Lemma any_arrival_order l : forall ts,
  Forall single_put ts -> Permutation l (owed ts) ->
  exists sched, forall q lg,
    queue (schedule (pending ts) sched (mk_config ts q lg)) = q ++ l.
Proof.
  induction l as [|v l IH]; intros ts Hs HP.
  - exists []. intros q lg.
    rewrite (pending_single_put _ Hs), <- (Permutation_length HP). simpl.
    now rewrite app_nil_r.
  - destruct (pick_put ts v Hs) as (k & ts' & Hp & Hk & Hs' & HP').
    { apply (Permutation_in _ HP). now left. }
    assert (Pl : Permutation l (owed ts')).
    { apply (Permutation_cons_inv (a := v)).
      eapply Permutation_trans; [exact HP|now apply Permutation_sym]. }
    destruct (IH ts' Hs' Pl) as (sched & Hsched).
    exists (k :: sched). intros q lg.
    assert (Hn : pending ts = S (pending ts')).
    { rewrite !pending_single_put by assumption.
      now rewrite <- (Permutation_length HP'). }
    rewrite Hn. cbn [schedule threads hd tl].
    destruct (runnable_count ts) as [|n] eqn:En; [lia|].
    rewrite (Nat.mod_small k (S n)) by lia. rewrite Hp.
    cbn [perform queue logged]. rewrite Hsched. now rewrite <- app_assoc.
Qed.

Lemma spawn_returned args kwargs functions vs :
  clashes kwargs = false ->
  Forall2 (fun f v => invoke f args kwargs = Return v) functions vs ->
  Forall single_put (spawn functions args kwargs).
Proof.
  intros Hk. unfold spawn.
  induction 1 as [|f v fs vs H _ IH]; simpl; constructor; [|exact IH].
  rewrite (Thread_bound _ _ _ Hk), (worker_Return _ _ _ _ H).
  right. exists v. reflexivity.
Qed.

(** X17: the order of the returned list is the scheduler's to choose.  When
    every callable returns a value that is not an [Exception], each
    permutation of the values is what [run_functions] returns under some
    schedule. *)
Theorem every_order_has_its_schedule functions vs l args kwargs :
  Forall2 (fun f v => invoke f args kwargs = Return v) functions vs ->
  Forall (fun v => isinstance_Exception v = None) vs ->
  clashes kwargs = false ->
  Permutation l vs ->
  exists sched, forall lg ck,
    fst (run_functions functions args kwargs (mk_world lg ck sched))
    = Return (VList l).
Proof.
  intros Hret Hval Hk HP.
  destruct (outcomes_returned _ _ Hk _ _ Hret) as [Ho Hh].
  destruct (any_arrival_order l (spawn functions args kwargs)) as (sched & Hs).
  - exact (spawn_returned _ _ _ _ Hk Hret).
  - now rewrite owed_spawn, Ho.
  - exists sched. intros lg ck.
    rewrite run_functions_queue. cbv zeta. cbn [scheduler logger].
    rewrite Hh, Hs. simpl.
    assert (F : first_failure l = None).
    { apply first_failure_None.
      apply (Permutation_Forall (Permutation_sym HP) Hval). }
    now rewrite F.
Qed.

(** [[lambda: 1, lambda: 2, lambda: 3]] can come back as [[3, 1, 2]]. *)
Lemma every_order_sample :
  (Forall2 (fun f v => invoke f [] [] = Return v)
           [Samples.const (VInt 1); Samples.const (VInt 2); Samples.const (VInt 3)]
           [VInt 1; VInt 2; VInt 3]
   /\ Forall (fun v => isinstance_Exception v = None) [VInt 1; VInt 2; VInt 3]
   /\ clashes [] = false
   /\ Permutation [VInt 3; VInt 1; VInt 2] [VInt 1; VInt 2; VInt 3])
  /\ exists sched, forall lg ck,
       fst (run_functions
              [Samples.const (VInt 1); Samples.const (VInt 2); Samples.const (VInt 3)]
              [] [] (mk_world lg ck sched))
       = Return (VList [VInt 3; VInt 1; VInt 2]).
Proof.
  assert (H1 : Forall2 (fun f v => invoke f [] [] = Return v)
                 [Samples.const (VInt 1); Samples.const (VInt 2);
                  Samples.const (VInt 3)]
                 [VInt 1; VInt 2; VInt 3]) by (repeat constructor).
  assert (H2 : Forall (fun v => isinstance_Exception v = None)
                 [VInt 1; VInt 2; VInt 3]) by (repeat constructor).
  assert (H3 : Permutation [VInt 3; VInt 1; VInt 2] [VInt 1; VInt 2; VInt 3]).
  { apply (Permutation_cons_app [VInt 1; VInt 2] [] (VInt 3)).
    reflexivity. }
  split.
  - repeat split; assumption.
  - exact (every_order_has_its_schedule _ _ _ [] [] H1 H2 eq_refl H3).
Defined.
